(** * HDHomerunSweeper: a shallow embedding of the DVR command-line tool

    The Go program queries an HDHomeRun DVR over HTTP, groups the recordings
    by series, sums the size of every episode and prints a table.  This file
    embeds its functions (discovery, recording fetch, grouping, aggregation,
    presentation and the delete-series command) and proves properties of them.
    The functions are those of the later of the two revisions of the source,
    which adds [deleteSeries] and moves the fetch of an episode list out of
    [aggregateStats] into [getEpisodes]; the functions the two revisions share
    are otherwise the same.

    Conventions of the embedding:
    - Go's [(T, error)] results are sums [error + T]; a lone [error] result
      is an [option error] ([None] is [nil]).
    - [uint32] and [int64] are [Z] with the wrap-around written out.
    - [*SeriesStat] is an index into a heap of [SeriesStat] objects, so that
      two maps holding the same pointer see the same object.
    - Every HTTP exchange is appended to a trace; the device answers as a
      function of the history and the request, hence may change over time.
    - Library behaviour the program relies on but does not define (JSON
      decoding, map iteration order, [slices.SortFunc]) is a field of the
      environment, constrained only by what the Go documentation promises. *)

From Stdlib Require Import ZArith Lia.
From Stdlib Require Import Floats.SpecFloat.
From stdpp Require Import gmap strings list fin_maps pretty sorting.

Open Scope Z_scope.

(** ** Machine integers *)

(** [uint32] arithmetic wraps modulo [2^32]. *)
Definition wrap32 (z : Z) : Z := z mod 2 ^ 32.

(** [int64] arithmetic wraps into [[-2^63, 2^63)]. *)
Definition wrap64 (z : Z) : Z := (z + 2 ^ 63) mod 2 ^ 64 - 2 ^ 63.

Definition int64_min : Z := - 2 ^ 63.
Definition int64_max : Z := 2 ^ 63 - 1.

(** ** Data model (the [type] declarations of the source) *)

(** A Go [error], identified with the text [err.Error()] yields. *)
Definition error := string.

Record DiscoveryResult := mkDiscoveryResult {
  DeviceID : string;
  StorageURL : string
}.

Record Recording := mkRecording {
  EpisodesURL : string;
  StartTime : Z;
  Category : string;
  Title : string;
  SeriesID : string
}.

(** [stTitle] is the field [Title] of the source; [Recording] already has a
    projection of that name. *)
Record SeriesStat := mkSeriesStat {
  stTitle : string;
  Count : Z;
  TotalSize : Z;
  EpisodesURLs : list string
}.

Record Episode := mkEpisode {
  PlayURL : string;
  CmdURL : string
}.

(** The zero value of [SeriesStat]; [&SeriesStat{Title: t}] is
    the zero value with the title set. *)
Definition newSeriesStat (title : string) : SeriesStat :=
  mkSeriesStat title 0 0 [].

Global Instance SeriesStat_inhabited : Inhabited SeriesStat :=
  populate (newSeriesStat "").

Definition setCount (c : Z) (s : SeriesStat) : SeriesStat :=
  mkSeriesStat (stTitle s) c (TotalSize s) (EpisodesURLs s).
Definition setTotalSize (t : Z) (s : SeriesStat) : SeriesStat :=
  mkSeriesStat (stTitle s) (Count s) t (EpisodesURLs s).
Definition setEpisodesURLs (us : list string) (s : SeriesStat) : SeriesStat :=
  mkSeriesStat (stTitle s) (Count s) (TotalSize s) us.

(** ** HTTP *)

(** The program itself only issues GET and HEAD.  POST is the method of the
    device's delete command, which the source records in its trailing
    comment ([POST /recorded/cmd?id=...&cmd=delete&rerecord=0]). *)
Inductive Method := GET | HEAD | POST.

Global Instance Method_eq_dec : EqDecision Method.
Proof. solve_decision. Defined.

(** [time.Second], in nanoseconds as [time.Duration] counts them. *)
Definition time_Second : Z := 1000000000.

(** [http.Client]: only the [Timeout] field is ever set.  A zero
    [Timeout] means no timeout. *)
Record Client := mkClient { Timeout : Z }.

(** [http.DefaultClient], used by the package-level [http.Get]. *)
Definition DefaultClient : Client := mkClient 0.

Record Request := mkRequest {
  reqMethod : Method;
  reqURL : string;
  reqTimeout : Z
}.

(** What the program reads of an [http.Response]: the status code, the
    outcome of [io.ReadAll(resp.Body)] and the [ContentLength] field
    ([-1] when the length is unknown). *)
Record Response := mkResponse {
  StatusCode : Z;
  Body : error + string;
  ContentLength : Z
}.

Definition http_StatusOK : Z := 200.

(** One exchange: the request and what came back, either a transport error
    (unreachable host, timeout, ...) or a response. *)
Definition Event : Type := Request * (error + Response).

(** ** Environment *)

(** A [*SeriesStat]: the index of the object in the heap. *)
Abbreviation ptr := nat (only parsing).

(** [cmp(a, b) < 0], the only way [slices.SortFunc] uses its comparison. *)
Definition less {A} (cmp : A → A → Z) (a b : A) : Prop := cmp a b < 0.

(** A strict weak ordering, as [slices.SortFunc] requires of [cmp]. *)
Record StrictWeakOrder {A} (lt : A → A → Prop) : Prop := {
  swo_irrefl : ∀ a, ¬ lt a a;
  swo_trans : ∀ a b c, lt a b → lt b c → lt a c;
  swo_incomp_trans : ∀ a b c,
    ¬ lt a b → ¬ lt b a → ¬ lt b c → ¬ lt c b → ¬ lt a c ∧ ¬ lt c a
}.

(** Everything outside the program.
    - [respond] is the network: given the exchanges so far and a request, the
      outcome of the request.
    - [unmarshal*] are [json.Unmarshal] at the three target types.
    - [mapRange] is the order in which a [for ... range] over a map visits
      its entries; Go leaves it unspecified, so any enumeration of the
      entries is allowed, and each loop (numbered by its first argument) may
      see a different one.
    - [sortFunc] is [slices.SortFunc]: it permutes the slice and, when the
      comparison is a strict weak ordering, leaves it sorted; it is not
      guaranteed stable. *)
Record World := mkWorld {
  respond : list Event → Request → error + Response;
  unmarshalDiscovery : string → error + DiscoveryResult;
  unmarshalRecordings : string → error + list Recording;
  unmarshalEpisodes : string → error + list Episode;
  mapRange : nat → gmap string ptr → list (string * ptr);
  mapRange_perm : ∀ n m, mapRange n m ≡ₚ map_to_list m;
  sortFunc : (ptr → ptr → Z) → list ptr → list ptr;
  sortFunc_perm : ∀ cmp l, sortFunc cmp l ≡ₚ l;
  sortFunc_sorted : ∀ cmp l,
    StrictWeakOrder (less cmp) →
    StronglySorted (λ a b, ¬ less cmp b a) (sortFunc cmp l)
}.

(** ** Program state and the monad of effects *)

(** The exchanges with the device so far (oldest first), the lines written
    to standard output (oldest first) and the heap of [SeriesStat] objects. *)
Record State := mkState {
  trace : list Event;
  stdout : list string;
  heap : list SeriesStat
}.

Definition initState : State := mkState [] [] [].

(** A computation either returns or ends the process with [os.Exit]. *)
Inductive Outcome (A : Type) :=
  | Done (a : A)
  | Exited (code : Z).
Arguments Done {A} a.
Arguments Exited {A} code.

Definition M (A : Type) : Type := State → Outcome A * State.

Definition ret {A} (a : A) : M A := λ s, (Done a, s).

Definition bind {A B} (m : M A) (k : A → M B) : M B := λ s,
  match m s with
  | (Done a, s') => k a s'
  | (Exited c, s') => (Exited c, s')
  end.

Global Instance M_ret : MRet M := @ret.
Global Instance M_bind : MBind M := λ A B k m, bind m k.

(** [os.Exit(code)] *)
Definition os_Exit {A} (code : Z) : M A := λ s, (Exited code, s).

(** [fmt.Println] and friends: one entry of [stdout] per line written. *)
Definition println (line : string) : M unit := λ s,
  (Done tt, mkState (trace s) (stdout s ++ [line]) (heap s)).

(** [&SeriesStat{...}]: allocate a fresh object. *)
Definition alloc (v : SeriesStat) : M ptr := λ s,
  (Done (length (heap s)), mkState (trace s) (stdout s) (heap s ++ [v])).

(** Dereference: every pointer the program holds comes from [alloc] and the heap
    only grows, so the default of [!!!] is never reached. *)
Definition deref (p : ptr) : M SeriesStat := λ s, (Done (heap s !!! p), s).

(** Assignment through a pointer: the object at [p] becomes [f] of itself. *)
Definition modify (p : ptr) (f : SeriesStat → SeriesStat) : M unit := λ s,
  (Done tt, mkState (trace s) (stdout s) (alter f p (heap s))).

(** ** [float64] and the [%.2f] verb *)

(** IEEE 754 binary64, through the executable specification of the Standard
    Library: 53 bits of precision, exponents up to 1024, round to nearest
    even. *)
Definition float64 := spec_float.

(** The conversion [float64(n)] of an integer. *)
Definition float64_of_int (n : Z) : float64 := binary_normalize 53 1024 n 0 false.

(** Division of two [float64]. *)
Definition float64_div (x y : float64) : float64 := SFdiv 53 1024 x y.

(** [num / den] rounded to the nearest integer, halves to the even one
    ([0 <= num], [0 < den]). *)
Definition roundHalfEven (num den : Z) : Z :=
  let q := num / den in
  let r := num mod den in
  if 2 * r <? den then q
  else if den <? 2 * r then q + 1
  else if Z.even q then q else q + 1.

(** A count of hundredths printed with two decimals. *)
Definition fixed2 (neg : bool) (hundredths : Z) : string :=
  (if neg then "-" else "") +:+ pretty (hundredths / 100) +:+ "." +:+
  (if hundredths mod 100 <? 10 then "0" else "") +:+ pretty (hundredths mod 100).

(** [fmt.Sprintf("%.2f", x)]: the exact value of [x] rounded to two
    decimals, halves to even; the sign is printed even when the digits
    are all zero. *)
Definition formatFixed2 (x : float64) : string :=
  match x with
  | S754_zero s => fixed2 s 0
  | S754_infinity s => if s then "-Inf" else "+Inf"
  | S754_nan => "NaN"
  | S754_finite s m e =>
    fixed2 s (if 0 <=? e then Z.pos m * 2 ^ e * 100
              else roundHalfEven (Z.pos m * 100) (2 ^ (- e)))
  end.

(** [float64(totalSize) / (1024 * 1024 * 1024)]: the constant is converted
    to [float64] (exactly) before the division. *)
Definition sizeGB (totalSize : Z) : float64 :=
  float64_div (float64_of_int totalSize) (float64_of_int (1024 * 1024 * 1024)).

(** The horizontal tab. *)
Definition tab : string := String (Ascii.ascii_of_nat 9) EmptyString.

(** ** The program *)

Section Program.
Variable W : World.

(** Perform one request: ask the network, record the exchange. *)
Definition roundTrip (req : Request) : M (error + Response) := λ s,
  let r := respond W (trace s) req in
  (Done r, mkState (trace s ++ [(req, r)]) (stdout s) (heap s)).

(** [client.Get(url)] and [client.Head(url)] *)
Definition Client_Get (client : Client) (url : string) : M (error + Response) :=
  roundTrip (mkRequest GET url (Timeout client)).
Definition Client_Head (client : Client) (url : string) : M (error + Response) :=
  roundTrip (mkRequest HEAD url (Timeout client)).

(** The package-level [http.Get(url)] is [DefaultClient.Get(url)]. *)
Definition http_Get (url : string) : M (error + Response) :=
  Client_Get DefaultClient url.

(** [getStorageUrl] *)
Definition getStorageUrl : M (error + string) :=
  println "Searching for HDHomeRun devices on the local network...";;
  let client := mkClient (5 * time_Second) in
  r ← Client_Get client "http://hdhomerun.local/discover.json";
  match r with
  | inl err => mret (inl ("failed to query discovery API: " +:+ err))
  | inr resp =>
    if negb (StatusCode resp =? http_StatusOK) then
      mret (inl ("discovery API returned status " +:+ pretty (StatusCode resp)))
    else
      match Body resp with
      | inl err => mret (inl err)
      | inr body =>
        match unmarshalDiscovery W body with
        | inl err => mret (inl ("failed to parse discovery JSON: " +:+ err))
        | inr discovery => mret (inr (StorageURL discovery))
        end
      end
  end.

(** [getStorageUrlOrExit] *)
Definition getStorageUrlOrExit : M string :=
  r ← getStorageUrl;
  match r with
  | inl err => println ("Discovery Error: " +:+ err);; os_Exit 1
  | inr ip => mret ip
  end.

(** [fetchRecordings] *)
Definition fetchRecordings (recordingsUrl : string) : M (error + list Recording) :=
  r ← http_Get recordingsUrl;
  match r with
  | inl err => mret (inl ("failed to connect to HDHomeRun DVR engine: " +:+ err))
  | inr resp =>
    if negb (StatusCode resp =? http_StatusOK) then
      mret (inl ("received non-200 status code: " +:+ pretty (StatusCode resp)))
    else
      match Body resp with
      | inl err => mret (inl err)
      | inr body =>
        match unmarshalRecordings W body with
        | inl err => mret (inl ("failed to parse JSON: " +:+ err))
        | inr recordings => mret (inr recordings)
        end
      end
  end.

(** [getEpisodes] (inlined in [aggregateStats] in the older revision) *)
Definition getEpisodes (url : string) : M (error + list Episode) :=
  let client := mkClient (5 * time_Second) in
  r ← Client_Get client url;
  match r with
  | inl err => mret (inl ("Failed to fetch " +:+ url +:+ ": " +:+ err))
  | inr resp =>
    if negb (StatusCode resp =? http_StatusOK) then
      mret (inl (url +:+ " returned status " +:+ pretty (StatusCode resp)))
    else
      match Body resp with
      | inl err => mret (inl err)
      | inr body =>
        match unmarshalEpisodes W body with
        | inl err => mret (inl ("failed to parse episode JSON: " +:+ err))
        | inr episodes => mret (inr episodes)
        end
      end
  end.

(** [getEpisodeSize] *)
Definition getEpisodeSize (playUrl : string) : M (error + Z) :=
  let client := mkClient (5 * time_Second) in
  r ← Client_Head client playUrl;
  match r with
  | inl err => mret (inl ("Failed to fetch " +:+ playUrl +:+ ": " +:+ err))
  | inr resp =>
    if negb (StatusCode resp =? http_StatusOK) then
      mret (inl (playUrl +:+ " returned status " +:+ pretty (StatusCode resp)))
    else
      mret (inr (ContentLength resp))
  end.

(** [collectRecordings]: the body of the loop, then the loop.  [series] is
    the pointer found in the map or the one just allocated; the two updates
    go through it. *)
Definition collectStep (seriesMap : gmap string ptr) (rec : Recording)
  : M (gmap string ptr) :=
  '(series, seriesMap) ←
    match seriesMap !! SeriesID rec with
    | Some series => mret (series, seriesMap)
    | None =>
      series ← alloc (newSeriesStat (Title rec));
      mret (series, <[SeriesID rec := series]> seriesMap)
    end;
  modify series (λ s, setCount (wrap32 (Count s + 1)) s);;
  modify series (λ s, setEpisodesURLs (EpisodesURLs s ++ [EpisodesURL rec]) s);;
  mret seriesMap.

Fixpoint collectLoop (seriesMap : gmap string ptr) (recordings : list Recording)
  : M (gmap string ptr) :=
  match recordings with
  | [] => mret seriesMap
  | rec :: rest =>
    seriesMap ← collectStep seriesMap rec;
    collectLoop seriesMap rest
  end.

Definition collectRecordings (recordings : list Recording) : M (gmap string ptr) :=
  collectLoop ∅ recordings.

(** [aggregateStats]: the inner loop over the episodes of one list, the
    outer loop over the episode-list URLs, then the function.  A [return err]
    inside a loop ends both loops. *)
Fixpoint episodesLoop (stat : ptr) (episodes : list Episode) : M (option error) :=
  match episodes with
  | [] => mret None
  | episode :: rest =>
    r ← getEpisodeSize (PlayURL episode);
    match r with
    | inl err => mret (Some err)
    | inr size =>
      modify stat (λ s, setCount (wrap32 (Count s + 1)) s);;
      modify stat (λ s, setTotalSize (wrap64 (TotalSize s + size)) s);;
      episodesLoop stat rest
    end
  end.

Fixpoint urlsLoop (stat : ptr) (urls : list string) : M (option error) :=
  match urls with
  | [] => mret None
  | url :: rest =>
    r ← getEpisodes url;
    match r with
    | inl err => mret (Some err)
    | inr episodes =>
      e ← episodesLoop stat episodes;
      match e with
      | Some err => mret (Some err)
      | None => urlsLoop stat rest
      end
    end
  end.

Definition aggregateStats (stat : ptr) : M (option error) :=
  modify stat (setCount 0);;
  modify stat (setTotalSize 0);;
  s ← deref stat;
  urlsLoop stat (EpisodesURLs s).

(** The comparison passed to [slices.SortFunc] in [printSeriesMap]; it reads
    the two objects through their pointers. *)
Definition cmpTotalSize (h : list SeriesStat) (a b : ptr) : Z :=
  if TotalSize (h !!! b) <? TotalSize (h !!! a) then 1
  else if TotalSize (h !!! a) <? TotalSize (h !!! b) then -1
  else 0.

(** One row as written to the tab writer: three tab-terminated cells.  The
    padding the tab writer adds to align the columns is not modelled. *)
Definition rowText (stat : SeriesStat) : string :=
  stTitle stat +:+ tab +:+ pretty (Count stat) +:+ tab +:+
  formatFixed2 (sizeGB (TotalSize stat)) +:+ " GB" +:+ tab.

Fixpoint rowsLoop (stats : list ptr) : M unit :=
  match stats with
  | [] => mret tt
  | stat :: rest =>
    s ← deref stat;
    println (rowText s);;
    rowsLoop rest
  end.

(** The slice [stats] of [printSeriesMap] after the sort. *)
Definition sortedStats (seriesMap : gmap string ptr) (h : list SeriesStat)
  : list ptr :=
  let stats := (mapRange W 1 seriesMap).*2 in
  sortFunc W (cmpTotalSize h) stats.

(** [printSeriesMap] *)
Definition printSeriesMap (seriesMap : gmap string ptr) : M unit := λ s,
  (let stats := sortedStats seriesMap (heap s) in
   println ("SERIES TITLE" +:+ tab +:+ "EPISODES" +:+ tab +:+ "STORAGE USED" +:+ tab);;
   println ("------------" +:+ tab +:+ "--------" +:+ tab +:+ "------------" +:+ tab);;
   rowsLoop stats;;
   println "";;
   println ("Total Series Found: " +:+ pretty (size seriesMap))) s.

(** The loop shared by [listRecordings] and [deleteSeries]: store the
    pointer in [oneMap], aggregate through it, drop the returned error. *)
Fixpoint aggregateLoop (oneMap : gmap string ptr) (entries : list (string * ptr))
  : M (gmap string ptr) :=
  match entries with
  | [] => mret oneMap
  | (key, stat) :: rest =>
    let oneMap := <[key := stat]> oneMap in
    _ ← aggregateStats stat;
    aggregateLoop oneMap rest
  end.

(** [listRecordings] *)
Definition listRecordings (storageUrl : string) : M unit :=
  r ← fetchRecordings storageUrl;
  match r with
  | inl err => println ("Error: " +:+ err)
  | inr recordings =>
    seriesMap ← collectRecordings recordings;
    oneMap ← aggregateLoop ∅ (mapRange W 0 seriesMap);
    printSeriesMap oneMap
  end.

(** The search loop of [deleteSeries]; [None] means the function returned
    from inside the loop. *)
Fixpoint matchLoop (title : string) (deleteRecordings recordings : list Recording)
  : M (option (list Recording)) :=
  match recordings with
  | [] => mret (Some deleteRecordings)
  | recording :: rest =>
    if String.prefix title (Title recording) then
      match deleteRecordings with
      | first :: _ =>
        println ("More than one title matches '" +:+ title +:+ "':");;
        println (Title first);;
        println (Title recording);;
        mret None
      | [] => matchLoop title (deleteRecordings ++ [recording]) rest
      end
    else matchLoop title deleteRecordings rest
  end.

(** The part of [deleteSeries] that follows the fetch of the recordings. *)
Definition deleteSeriesFound (title : string) (recordings : list Recording)
  : M unit :=
  found ← matchLoop title [] recordings;
  match found with
  | None => mret tt
  | Some deleteRecordings =>
    if (0 =? Z.of_nat (length deleteRecordings)) then
      println ("Nothing matches '" +:+ title +:+ "'")
    else
      seriesMap ← collectRecordings recordings;
      _ ← aggregateLoop ∅ (mapRange W 2 seriesMap);
      mret tt
  end.

(** [deleteSeries]; the flag [forever] is not used by the body. *)
Definition deleteSeries (title : string) (forever : bool) : M unit :=
  storageUrl ← getStorageUrlOrExit;
  r ← fetchRecordings storageUrl;
  match r with
  | inl err => println ("Error: " +:+ err)
  | inr recordings => deleteSeriesFound title recordings
  end.

(** The [list] command of [main]. *)
Definition listCommand : M unit :=
  storageUrl ← getStorageUrlOrExit;
  listRecordings storageUrl.

End Program.

(** ** Command-line dispatch *)

Section Main.
Variable W : World.

(** [FlagSet.Parse] of the two flag sets, both built with
    [flag.ExitOnError]: parsing either ends the process with a status (2 on
    a malformed flag, 0 on a request for help) or returns, for
    [delete-series] with the values of [-title] and [-forever].  What the
    [flag] package prints goes to standard error, outside the output
    modelled here. *)
Variable parseListFlags : list string → option Z.
Variable parseDeleteSeriesFlags : list string → Z + (string * bool).

(** The double quote character. *)
Definition dquote : string := String (Ascii.ascii_of_nat 34) EmptyString.

(** [printUsage] *)
Definition printUsage : M unit :=
  println "HDHomeRun DVR CLI";;
  println "Usage:";;
  println "  hdhr-cli list";;
  println ("  hdhr-cli delete-series --title " +:+ dquote +:+ "Series Title" +:+
           dquote +:+ "  --forever").

(** [main], with [os.Args] as its argument.  [PrintDefaults] writes to
    standard error. *)
Definition main (args : list string) : M unit :=
  (if Z.of_nat (length args) <? 2 then printUsage;; os_Exit 1 else mret tt);;
  let command := args !!! 1%nat in
  if decide (command = "list") then
    (match parseListFlags (drop 2 args) with
     | Some code => os_Exit code
     | None => mret tt
     end);;
    listCommand W
  else if decide (command = "delete-series") then
    match parseDeleteSeriesFlags (drop 2 args) with
    | inl code => os_Exit code
    | inr (deleteSeriesTitle, deleteSeriesForever) =>
      (if decide (deleteSeriesTitle = "") then os_Exit 1 else mret tt);;
      deleteSeries W deleteSeriesTitle deleteSeriesForever
    end
  else
    println "Unknown command.";;
    printUsage;;
    os_Exit 1.

End Main.

(** ** A world given by tables *)

(** The library sort as an instance: stdpp's merge sort on "not greater". *)
Global Instance less_dec {A} (cmp : A → A → Z) a b : Decision (less cmp a b).
Proof. unfold less. apply _. Defined.

Definition mergeSortFunc (cmp : ptr → ptr → Z) (l : list ptr) : list ptr :=
  merge_sort (λ a b, ¬ less cmp b a) l.

Lemma swo_total {A} (cmp : A → A → Z) :
  StrictWeakOrder (less cmp) → Total (λ a b, ¬ less cmp b a).
Proof.
  intros [Hi Ht _] a b.
  destruct (decide (less cmp b a)) as [Hba|Hba]; [right|left; exact Hba].
  intros Hab. exact (Hi a (Ht a b a Hab Hba)).
Qed.

Lemma swo_transitive {A} (cmp : A → A → Z) :
  StrictWeakOrder (less cmp) → Transitive (λ a b, ¬ less cmp b a).
Proof.
  intros [Hi Ht Hn] a b c Hba Hcb Hca.
  destruct (decide (less cmp a b)) as [Hab|Hab].
  { exact (Hcb (Ht c a b Hca Hab)). }
  destruct (decide (less cmp b c)) as [Hbc|Hbc].
  { exact (Hba (Ht b c a Hbc Hca)). }
  destruct (Hn a b c Hab Hba Hbc Hcb) as [_ Hca']. exact (Hca' Hca).
Qed.

Lemma mergeSortFunc_perm cmp l : mergeSortFunc cmp l ≡ₚ l.
Proof. apply merge_sort_Permutation. Qed.

Lemma mergeSortFunc_sorted cmp l :
  StrictWeakOrder (less cmp) →
  StronglySorted (λ a b, ¬ less cmp b a) (mergeSortFunc cmp l).
Proof.
  intros Hswo. unfold mergeSortFunc.
  pose proof (swo_total cmp Hswo). pose proof (swo_transitive cmp Hswo).
  apply (StronglySorted_merge_sort (λ a b, ¬ less cmp b a)).
Qed.

(** Look a key up in an association list (first match). *)
Fixpoint assoc {K V} `{EqDecision K} (k : K) (l : list (K * V)) : option V :=
  match l with
  | [] => None
  | (k', v) :: rest => if decide (k' = k) then Some v else assoc k rest
  end.

(** A device that answers each (method, URL) from a fixed table, and is
    unreachable for everything else; bodies decode by table as well; maps
    are visited in stdpp's canonical order. *)
Definition tableWorld
    (net : list (Method * string * (error + Response)))
    (disc : list (string * DiscoveryResult))
    (recs : list (string * list Recording))
    (eps : list (string * list Episode)) : World :=
  {| respond := λ _ req,
       default (inl "no route to host") (assoc (reqMethod req, reqURL req) net);
     unmarshalDiscovery := λ body,
       from_option inr (inl "invalid character") (assoc body disc);
     unmarshalRecordings := λ body,
       from_option inr (inl "invalid character") (assoc body recs);
     unmarshalEpisodes := λ body,
       from_option inr (inl "invalid character") (assoc body eps);
     mapRange := λ _ m, map_to_list m;
     mapRange_perm := λ _ m, reflexivity (map_to_list m);
     sortFunc := mergeSortFunc;
     sortFunc_perm := mergeSortFunc_perm;
     sortFunc_sorted := mergeSortFunc_sorted |}.

(** A 200 response with the given body. *)
Definition okBody (body : string) : error + Response :=
  inr (mkResponse 200 (inr body) (Z.of_nat (String.length body))).

(** A 200 response to HEAD announcing [n] bytes. *)
Definition okSize (n : Z) : error + Response :=
  inr (mkResponse 200 (inr "") n).

(** A response with another status. *)
Definition status (code : Z) : error + Response :=
  inr (mkResponse code (inr "") 0).

(** ** Concrete devices *)

(** The scenario of the specification: two recordings of series A, one of
    series B; each episode list holds one episode; the episodes of A weigh
    1 GiB each and the episode of B half of that. *)
Definition recA1 : Recording :=
  mkRecording "http://10.0.0.5/episodes?A1" 1 "series" "Show A" "A".
Definition recA2 : Recording :=
  mkRecording "http://10.0.0.5/episodes?A2" 2 "series" "Show A (rerun)" "A".
Definition recB : Recording :=
  mkRecording "http://10.0.0.5/episodes?B1" 3 "series" "Show B" "B".

Definition scenarioNet : list (Method * string * (error + Response)) :=
  [ (GET, "http://hdhomerun.local/discover.json", okBody "<discover>");
    (GET, "http://10.0.0.5:80", okBody "<recordings>");
    (GET, "http://10.0.0.5/episodes?A1", okBody "<episodes A1>");
    (GET, "http://10.0.0.5/episodes?A2", okBody "<episodes A2>");
    (GET, "http://10.0.0.5/episodes?B1", okBody "<episodes B1>");
    (HEAD, "http://10.0.0.5/play?a1", okSize 1073741824);
    (HEAD, "http://10.0.0.5/play?a2", okSize 1073741824);
    (HEAD, "http://10.0.0.5/play?b1", okSize 536870912) ].

Definition scenarioDiscovery : list (string * DiscoveryResult) :=
  [ ("<discover>", mkDiscoveryResult "10ABCDEF" "http://10.0.0.5:80") ].

Definition scenarioRecordings : list (string * list Recording) :=
  [ ("<recordings>", [recA1; recB; recA2]) ].

Definition scenarioEpisodes : list (string * list Episode) :=
  [ ("<episodes A1>", [mkEpisode "http://10.0.0.5/play?a1" "http://10.0.0.5/cmd?a1"]);
    ("<episodes A2>", [mkEpisode "http://10.0.0.5/play?a2" "http://10.0.0.5/cmd?a2"]);
    ("<episodes B1>", [mkEpisode "http://10.0.0.5/play?b1" "http://10.0.0.5/cmd?b1"]) ].

Definition scenarioWorld : World :=
  tableWorld scenarioNet scenarioDiscovery scenarioRecordings scenarioEpisodes.

(** No device on the network: every request fails in transport. *)
Definition downWorld : World := tableWorld [] [] [] [].

(** A device holding one series whose two episodes are announced with
    [2^62] bytes each. *)
Definition recBig : Recording :=
  mkRecording "http://10.0.0.5/episodes?big" 4 "series" "Big Show" "BIG".

Definition hugeWorld : World :=
  tableWorld
    [ (GET, "http://hdhomerun.local/discover.json", okBody "<discover>");
      (GET, "http://10.0.0.5:80", okBody "<recordings>");
      (GET, "http://10.0.0.5/episodes?big", okBody "<episodes big>");
      (HEAD, "http://10.0.0.5/play?big1", okSize (2 ^ 62));
      (HEAD, "http://10.0.0.5/play?big2", okSize (2 ^ 62)) ]
    scenarioDiscovery
    [ ("<recordings>", [recBig]) ]
    [ ("<episodes big>",
       [mkEpisode "http://10.0.0.5/play?big1" "http://10.0.0.5/cmd?big1";
        mkEpisode "http://10.0.0.5/play?big2" "http://10.0.0.5/cmd?big2"]) ].

(** A device that answers HEAD without a Content-Length header: Go then
    reports [ContentLength = -1]. *)
Definition recLive : Recording :=
  mkRecording "http://10.0.0.5/episodes?live" 5 "series" "Live Show" "LIVE".

Definition unknownLengthWorld : World :=
  tableWorld
    [ (GET, "http://hdhomerun.local/discover.json", okBody "<discover>");
      (GET, "http://10.0.0.5:80", okBody "<recordings>");
      (GET, "http://10.0.0.5/episodes?live", okBody "<episodes live>");
      (HEAD, "http://10.0.0.5/play?live1", okSize (-1)) ]
    scenarioDiscovery
    [ ("<recordings>", [recLive]) ]
    [ ("<episodes live>",
       [mkEpisode "http://10.0.0.5/play?live1" "http://10.0.0.5/cmd?live1"]) ].

(** The scenario again, except that the second episode list of series A
    answers with status 500. *)
Definition brokenWorld : World :=
  tableWorld
    ((GET, "http://10.0.0.5/episodes?A2", status 500) :: scenarioNet)
    scenarioDiscovery scenarioRecordings scenarioEpisodes.

(** A device that holds no recording. *)
Definition emptyWorld : World :=
  tableWorld
    [ (GET, "http://hdhomerun.local/discover.json", okBody "<discover>");
      (GET, "http://10.0.0.5:80", okBody "<recordings>") ]
    scenarioDiscovery [ ("<recordings>", []) ] [].

(** ** Vocabulary of the statements *)

(** The state after one more exchange. *)
Definition addEvent (ev : Event) (s : State) : State :=
  mkState (trace s ++ [ev]) (stdout s) (heap s).

(** The state after one more line of output. *)
Definition addLine (line : string) (s : State) : State :=
  mkState (trace s) (stdout s ++ [line]) (heap s).

Definition timeout5s : Z := 5 * time_Second.

(** The requests the program builds. *)
Definition discoverRequest : Request :=
  mkRequest GET "http://hdhomerun.local/discover.json" timeout5s.

Definition recordingsRequest (url : string) : Request := mkRequest GET url 0.

Definition episodesRequest (url : string) : Request := mkRequest GET url timeout5s.

Definition sizeRequest (url : string) : Request := mkRequest HEAD url timeout5s.

(** The exchange a request gives rise to in state [s]. *)
Definition exchange (W : World) (s : State) (req : Request) : Event :=
  (req, respond W (trace s) req).

Definition banner : string :=
  "Searching for HDHomeRun devices on the local network...".

(** The body of [resp] could be read and decodes to a record whose storage
    URL is [url]. *)
Definition discoveryParses (W : World) (resp : Response) (url : string) : Prop :=
  ∃ body d, Body resp = inr body ∧ unmarshalDiscovery W body = inr d ∧
            StorageURL d = url.

Definition sumZ (l : list Z) : Z := foldr Z.add 0 l.

(** The size an exchange delivered: the [ContentLength] of a 200 answer to
    a HEAD request. *)
Definition sizeObtained (ev : Event) : option Z :=
  match ev with
  | (req, inr resp) =>
    if decide (reqMethod req = HEAD) then
      if StatusCode resp =? 200 then Some (ContentLength resp) else None
    else None
  | (_, inl _) => None
  end.

(** The sizes delivered in a stretch of the trace, in order. *)
Definition sizesObtained (evs : list Event) : list Z := omap sizeObtained evs.

(** The episode list an exchange delivered: the decoded body of a 200 answer
    to a GET request. *)
Definition listingObtained (W : World) (ev : Event) : option (list Episode) :=
  match ev with
  | (req, inr resp) =>
    if decide (reqMethod req = GET) then
      if StatusCode resp =? 200 then
        match Body resp with
        | inr body =>
          match unmarshalEpisodes W body with
          | inr episodes => Some episodes
          | inl _ => None
          end
        | inl _ => None
        end
      else None
    else None
  | (_, inl _) => None
  end.

(** All the [Episode] entries listed in a stretch of the trace. *)
Definition episodesListed (W : World) (evs : list Event) : list Episode :=
  concat (omap (listingObtained W) evs).

(** [n] more episodes weighing [t] bytes in total, in machine arithmetic. *)
Definition bump (n t : Z) (st : SeriesStat) : SeriesStat :=
  setTotalSize (wrap64 (TotalSize st + t)) (setCount (wrap32 (Count st + n)) st).

(** One more episode of [size] bytes: the two updates of the inner loop. *)
Definition addEpisode (size : Z) (st : SeriesStat) : SeriesStat :=
  setTotalSize (wrap64 (TotalSize st + size)) (setCount (wrap32 (Count st + 1)) st).

Definition addEpisodes (sizes : list Z) (st : SeriesStat) : SeriesStat :=
  foldl (λ st size, addEpisode size st) st sizes.

(** The two resets at the top of [aggregateStats]. *)
Definition resetStat (st : SeriesStat) : SeriesStat :=
  setTotalSize 0 (setCount 0 st).

(** An exchange as aggregation performs them: a GET or a HEAD, through a
    client with the five second timeout. *)
Definition aggExchange (ev : Event) : Prop :=
  (reqMethod ev.1 = GET ∨ reqMethod ev.1 = HEAD) ∧ reqTimeout ev.1 = timeout5s.

(** The URLs requested with method [m] in a stretch of the trace. *)
Definition requestsOf (m : Method) (evs : list Event) : list string :=
  (λ ev, reqURL ev.1) <$> filter (λ ev, reqMethod ev.1 = m) evs.

(** The exchanges performed between state [s] and the later state [s']. *)
Definition newEvents (s s' : State) : list Event :=
  drop (length (trace s)) (trace s').

(** The state in which a series built by grouping [recordings] awaits
    aggregation. *)
Definition grouped (recordings : list Recording) : State :=
  (collectRecordings recordings initState).2.

(** The map of pointers read through the heap: series identity to object. *)
Definition view (h : list SeriesStat) (m : gmap string ptr)
  : gmap string SeriesStat :=
  (λ p, h !!! p) <$> m.

(** Every pointer of the map is allocated and no two keys share one. *)
Record wfMap (h : list SeriesStat) (m : gmap string ptr) : Prop := {
  wf_alloc : ∀ k p, m !! k = Some p → (p < length h)%nat;
  wf_inj : ∀ k1 k2 p, m !! k1 = Some p → m !! k2 = Some p → k1 = k2
}.

(** The two updates [collectRecordings] makes for one recording. *)
Definition addRecording (rec : Recording) (st : SeriesStat) : SeriesStat :=
  setEpisodesURLs (EpisodesURLs st ++ [EpisodesURL rec])
                  (setCount (wrap32 (Count st + 1)) st).

Definition addRecordings (recs : list Recording) (st : SeriesStat) : SeriesStat :=
  foldl (λ st rec, addRecording rec st) st recs.

(** One iteration of the grouping loop, on the objects themselves. *)
Definition groupStep (v : gmap string SeriesStat) (rec : Recording)
  : gmap string SeriesStat :=
  <[SeriesID rec :=
      addRecording rec (default (newSeriesStat (Title rec)) (v !! SeriesID rec))]> v.

(** The recordings of series [sid], in input order. *)
Definition ofSeries (sid : string) (recs : list Recording) : list Recording :=
  filter (λ rec, SeriesID rec = sid) recs.

(** All the URLs held by the objects of a view. *)
Definition allURLs (v : gmap string SeriesStat) : list string :=
  concat ((λ kst, EpisodesURLs kst.2) <$> map_to_list v).

Definition headerLine : string :=
  "SERIES TITLE" +:+ tab +:+ "EPISODES" +:+ tab +:+ "STORAGE USED" +:+ tab.

Definition separatorLine : string :=
  "------------" +:+ tab +:+ "--------" +:+ tab +:+ "------------" +:+ tab.

(** The rows of the table: the objects behind the sorted slice. *)
Definition tableRows (W : World) (seriesMap : gmap string ptr)
    (h : list SeriesStat) : list SeriesStat :=
  (λ p, h !!! p) <$> sortedStats W seriesMap h.

(** Everything [printSeriesMap] writes. *)
Definition tableLines (W : World) (seriesMap : gmap string ptr)
    (h : list SeriesStat) : list string :=
  [headerLine; separatorLine] ++ (rowText <$> tableRows W seriesMap h) ++
  [""; "Total Series Found: " +:+ pretty (size seriesMap)].

(** A non-negative integer rounded to 53 significant bits, halves to the
    even mantissa: what [float64] keeps of it.  Integers up to [2^53] are
    kept as they are. *)
Definition round53 (a : Z) : Z :=
  let k := Z.log2 a + 1 - 53 in
  if k <=? 0 then a else roundHalfEven a (2 ^ k) * 2 ^ k.

(** The shift record reached from an exact mantissa [m] after [j] right
    shifts: the quotient, the last bit shifted out and whether a lower bit
    was set. *)
Definition shifted (m j : Z) : shr_record :=
  Build_shr_record (m / 2 ^ j)
    (2 ^ j <=? 2 * (m mod 2 ^ j))
    (negb ((m mod 2 ^ j =? 0) || (2 * (m mod 2 ^ j) =? 2 ^ j))).

(** The recordings whose title starts with [title], in input order. *)
Definition matching (title : string) (recs : list Recording) : list Recording :=
  filter (λ rec, String.prefix title (Title rec) = true) recs.

(** The three lines printed when a second title matches. *)
Definition ambiguous (title : string) (first second : Recording) (s : State)
  : State :=
  addLine (Title second)
    (addLine (Title first)
       (addLine ("More than one title matches '" +:+ title +:+ "':") s)).

(** An exchange that cannot modify the device. *)
Definition readOnly (ev : Event) : Prop :=
  reqMethod ev.1 = GET ∨ reqMethod ev.1 = HEAD.

(** The answer decodes: status 200, a readable body, accepted by the
    decoder [unmarshal], with value [v]. *)
Definition decodes {A} (unmarshal : string → error + A) (ans : error + Response)
    (v : A) : Prop :=
  ∃ resp body, ans = inr resp ∧ StatusCode resp = 200 ∧
               Body resp = inr body ∧ unmarshal body = inr v.

(** The lines of [printUsage]. *)
Definition usageLines : list string :=
  [ "HDHomeRun DVR CLI"; "Usage:"; "  hdhr-cli list";
    "  hdhr-cli delete-series --title " +:+ dquote +:+ "Series Title" +:+
    dquote +:+ "  --forever" ].

(** An exchange that gave aggregation what it asked for: a size or an
    episode list. *)
Definition delivered (W : World) (ev : Event) : Prop :=
  is_Some (sizeObtained ev) ∨ is_Some (listingObtained W ev).

(** The method and URL of the request of an exchange. *)
Definition requestLine (ev : Event) : Method * string :=
  (reqMethod ev.1, reqURL ev.1).

(** The episode lists delivered in a stretch of the trace, one per
    successful listing, in order. *)
Definition listingsObtained (W : World) (evs : list Event) : list (list Episode) :=
  omap (listingObtained W) evs.

(** The requests of a complete aggregation: for each URL in turn, the GET
    of the list and then one HEAD per episode listed. *)
Definition plan (urls : list string) (listings : list (list Episode))
  : list (Method * string) :=
  concat (zip_with (λ url episodes,
                      (GET, url) :: ((λ episode, (HEAD, PlayURL episode)) <$> episodes))
                   urls listings).

(** The heap [h] is [base] followed by one object per entry of [m], and
    the pointers of [m] all fall in that new stretch. *)
Definition freshOver (base h : list SeriesStat) (m : gmap string ptr) : Prop :=
  ∃ fresh, h = base ++ fresh ∧ length fresh = size m ∧
           ∀ k p, m !! k = Some p → (length base ≤ p < length h)%nat.

(** The distinct series identities of the input, each listed once. *)
Definition seriesIDs (recs : list Recording) : list string :=
  remove_dups (SeriesID <$> recs).

(** Two heaps that hold the same series: as many objects, each with the
    title and the URL list it had. *)
Definition sameSeries (h h' : list SeriesStat) : Prop :=
  length h' = length h ∧
  ∀ p, stTitle (h' !!! p) = stTitle (h !!! p) ∧
       EpisodesURLs (h' !!! p) = EpisodesURLs (h !!! p).

(** What grouping records of series [sid]: the title of its first recording
    and the URLs of its recordings in input order. *)
Definition seriesEntry (recs : list Recording) (sid : string)
  : string * list string :=
  (default "" (Title <$> head (ofSeries sid recs)),
   EpisodesURL <$> ofSeries sid recs).

(** * Properties *)

(** ** Unfolding the monad *)

Lemma bind_eq {A B} (m : M A) (k : A → M B) s :
  (m ≫= k) s =
  match m s with
  | (Done a, s') => k a s'
  | (Exited c, s') => (Exited c, s')
  end.
Proof. reflexivity. Qed.

(** Expose the primitive effects of a computation applied to a state. *)
Ltac mprims :=
  cbv [mbind M_bind bind mret M_ret ret roundTrip println os_Exit
       Client_Get Client_Head http_Get DefaultClient alloc deref modify];
  cbn [trace stdout heap fst snd Timeout].

Ltac run_request :=
  repeat match goal with
  | |- context [match ?r with inl _ => _ | inr _ => _ end] => destruct r; cbn
  | |- context [if ?b then _ else _] => destruct b; cbn
  end; eauto.

Section OneRequest.
Variable W : World.

Lemma getStorageUrl_state s :
  ∃ r, getStorageUrl W s =
       (Done r, addEvent (exchange W (addLine banner s) discoverRequest)
                         (addLine banner s)).
Proof.
  unfold getStorageUrl, banner, exchange, addEvent, discoverRequest, recordingsRequest,
    episodesRequest, sizeRequest, timeout5s, addLine. mprims. run_request. Qed.

Lemma fetchRecordings_state url s :
  ∃ r, fetchRecordings W url s =
       (Done r, addEvent (exchange W s (recordingsRequest url)) s).
Proof.
  unfold fetchRecordings, exchange, addEvent, discoverRequest, recordingsRequest,
    episodesRequest, sizeRequest, timeout5s. mprims. run_request. Qed.

Lemma getEpisodes_state url s :
  ∃ r, getEpisodes W url s =
       (Done r, addEvent (exchange W s (episodesRequest url)) s).
Proof.
  unfold getEpisodes, exchange, addEvent, discoverRequest, recordingsRequest,
    episodesRequest, sizeRequest, timeout5s. mprims. run_request. Qed.

Lemma getEpisodeSize_state url s :
  ∃ r, getEpisodeSize W url s =
       (Done r, addEvent (exchange W s (sizeRequest url)) s).
Proof.
  unfold getEpisodeSize, exchange, addEvent, discoverRequest, recordingsRequest,
    episodesRequest, sizeRequest, timeout5s. mprims. run_request. Qed.

End OneRequest.

(** ** Discovery *)

(** C7.  [getStorageUrl] always prints the banner and performs exactly the
    discovery request.  It returns the storage URL exactly when the endpoint
    answers 200 with a body that is read and decodes; it returns an error
    exactly when the request fails in transport, the status is not 200, or
    no decodable body is obtained.  [getStorageUrlOrExit] turns the error
    into the line "Discovery Error: ..." followed by exit status 1, and a
    success into the URL. *)
Theorem getStorageUrl_spec (W : World) (s : State) :
  let s0 := addLine banner s in
  let ans := respond W (trace s0) discoverRequest in
  let s1 := addEvent (discoverRequest, ans) s0 in
  (∀ url, getStorageUrl W s = (Done (inr url), s1) ↔
          ∃ resp, ans = inr resp ∧ StatusCode resp = 200 ∧
                  discoveryParses W resp url) ∧
  ((∃ err, getStorageUrl W s = (Done (inl err), s1)) ↔
   (∃ e, ans = inl e) ∨
   (∃ resp, ans = inr resp ∧
            (StatusCode resp ≠ 200 ∨ ¬ ∃ url, discoveryParses W resp url))) ∧
  (∀ err, getStorageUrl W s = (Done (inl err), s1) →
          getStorageUrlOrExit W s =
          (Exited 1, addLine ("Discovery Error: " +:+ err) s1)) ∧
  (∀ url, getStorageUrl W s = (Done (inr url), s1) →
          getStorageUrlOrExit W s = (Done url, s1)).
Proof.
  intros s0 ans s1.
  assert (Hrun : getStorageUrl W s =
    (Done match ans with
          | inl err => inl ("failed to query discovery API: " +:+ err)
          | inr resp =>
            if negb (StatusCode resp =? http_StatusOK)
            then inl ("discovery API returned status " +:+ pretty (StatusCode resp))
            else match Body resp with
                 | inl err => inl err
                 | inr body =>
                   match unmarshalDiscovery W body with
                   | inl err => inl ("failed to parse discovery JSON: " +:+ err)
                   | inr discovery => inr (StorageURL discovery)
                   end
                 end
          end, s1)).
  { subst s1 ans s0. unfold getStorageUrl, addEvent, addLine, banner, discoverRequest, timeout5s.
    mprims. run_request. }
  unfold http_StatusOK in Hrun.
  repeat split.
  - rewrite Hrun. intros [= H]. destruct ans as [e|resp]; [discriminate|].
    exists resp. split; [done|].
    destruct (Z.eqb_spec (StatusCode resp) 200) as [Hst|Hst]; simpl in H; [|discriminate].
    split; [done|]. unfold discoveryParses.
    destruct (Body resp) as [e|body]; [discriminate|].
    destruct (unmarshalDiscovery W body) as [e|d] eqn:Hd; [discriminate|].
    exists body, d. by simplify_eq.
  - intros (resp & Hans & Hst & body & d & Hb & Hd & Hu).
    rewrite Hrun, Hans, Hst, Hb, Hd, Hu. reflexivity.
  - intros [err H]. rewrite Hrun in H. injection H as H.
    destruct ans as [e|resp]; [left; eauto|right].
    exists resp. split; [done|].
    destruct (Z.eqb_spec (StatusCode resp) 200) as [Hst|Hst]; simpl in H; [right|by left].
    intros (url & body & d & Hb & Hd & _). rewrite Hb, Hd in H. discriminate.
  - intros [[e He]|(resp & Hans & Hc)]; rewrite Hrun.
    + rewrite He. eauto.
    + rewrite Hans.
      destruct (Z.eqb_spec (StatusCode resp) 200) as [Hst|Hst]; simpl; [|eauto].
      destruct Hc as [Hc|Hc]; [done|].
      destruct (Body resp) as [e|body] eqn:Hb; [eauto|].
      destruct (unmarshalDiscovery W body) as [e|d] eqn:Hd; [eauto|].
      exfalso. apply Hc. exists (StorageURL d), body, d. done.
  - intros err H. unfold getStorageUrlOrExit. mprims.
    rewrite H. reflexivity.
  - intros url H. unfold getStorageUrlOrExit. mprims.
    rewrite H. reflexivity.
Qed.

Lemma getStorageUrl_spec_witness :
  getStorageUrlOrExit downWorld initState =
    (Exited 1,
     mkState [(discoverRequest, inl "no route to host")]
             [banner; "Discovery Error: failed to query discovery API: no route to host"]
             []) ∧
  getStorageUrlOrExit scenarioWorld initState =
    (Done "http://10.0.0.5:80",
     mkState [(discoverRequest, okBody "<discover>")] [banner] []).
Proof.
  split.
  - apply (proj1 (proj2 (proj2 (getStorageUrl_spec downWorld initState)))
             "failed to query discovery API: no route to host").
    reflexivity.
  - apply (proj2 (proj2 (proj2 (getStorageUrl_spec scenarioWorld initState)))
             "http://10.0.0.5:80").
    reflexivity.
Defined.

(** ** Aggregation *)

(** *** Wrap-around arithmetic *)

Lemma wrap32_range z : 0 ≤ wrap32 z < 2 ^ 32.
Proof. unfold wrap32. apply Z.mod_pos_bound. lia. Qed.

Lemma wrap32_small z : 0 ≤ z < 2 ^ 32 → wrap32 z = z.
Proof. unfold wrap32. intros. by apply Z.mod_small. Qed.

Lemma wrap32_add_l x y : wrap32 (wrap32 x + y) = wrap32 (x + y).
Proof. unfold wrap32. by rewrite Zplus_mod_idemp_l. Qed.

Lemma wrap64_range z : int64_min ≤ wrap64 z ≤ int64_max.
Proof.
  unfold wrap64, int64_min, int64_max.
  pose proof (Z.mod_pos_bound (z + 2 ^ 63) (2 ^ 64)). lia.
Qed.

Lemma wrap64_small z : int64_min ≤ z ≤ int64_max → wrap64 z = z.
Proof.
  unfold wrap64, int64_min, int64_max. intros.
  rewrite Z.mod_small; lia.
Qed.

Lemma wrap64_add_l x y : wrap64 (wrap64 x + y) = wrap64 (x + y).
Proof.
  unfold wrap64.
  replace ((x + 2 ^ 63) mod 2 ^ 64 - 2 ^ 63 + y + 2 ^ 63)
    with ((x + 2 ^ 63) mod 2 ^ 64 + y) by lia.
  rewrite Zplus_mod_idemp_l. do 2 f_equal. lia.
Qed.

(** *** What the trace says was obtained *)

Lemma sumZ_app l1 l2 : sumZ (l1 ++ l2) = sumZ l1 + sumZ l2.
Proof. induction l1 as [|x l1 IH]; simpl; [done|]. rewrite IH. lia. Qed.

Lemma sumZ_nonneg l : Forall (λ z, 0 ≤ z) l → 0 ≤ sumZ l.
Proof. induction 1; simpl; lia. Qed.

Lemma bump_bump n1 t1 n2 t2 st :
  bump n2 t2 (bump n1 t1 st) = bump (n1 + n2) (t1 + t2) st.
Proof.
  unfold bump, setTotalSize, setCount; simpl.
  rewrite wrap32_add_l, wrap64_add_l. f_equal; f_equal; lia.
Qed.

Lemma bump_0 st :
  0 ≤ Count st < 2 ^ 32 → int64_min ≤ TotalSize st ≤ int64_max → bump 0 0 st = st.
Proof.
  intros Hc Ht. unfold bump, setTotalSize, setCount; simpl.
  rewrite !Z.add_0_r, wrap32_small, wrap64_small by done. by destruct st.
Qed.

Lemma sizesObtained_cons ev evs :
  sizesObtained (ev :: evs) =
  match sizeObtained ev with
  | Some size => size :: sizesObtained evs
  | None => sizesObtained evs
  end.
Proof. reflexivity. Qed.

Lemma episodesListed_cons W ev evs :
  episodesListed W (ev :: evs) =
  match listingObtained W ev with
  | Some episodes => episodes ++ episodesListed W evs
  | None => episodesListed W evs
  end.
Proof. unfold episodesListed. simpl. by destruct (listingObtained W ev). Qed.

Lemma sizesObtained_app evs1 evs2 :
  sizesObtained (evs1 ++ evs2) = sizesObtained evs1 ++ sizesObtained evs2.
Proof. apply omap_app. Qed.

Lemma episodesListed_app W evs1 evs2 :
  episodesListed W (evs1 ++ evs2) = episodesListed W evs1 ++ episodesListed W evs2.
Proof. unfold episodesListed. by rewrite omap_app, concat_app. Qed.

Lemma requestsOf_app m evs1 evs2 :
  requestsOf m (evs1 ++ evs2) = requestsOf m evs1 ++ requestsOf m evs2.
Proof. unfold requestsOf. by rewrite filter_app, fmap_app. Qed.

Lemma addEpisodes_app sizes1 sizes2 st :
  addEpisodes (sizes1 ++ sizes2) st = addEpisodes sizes2 (addEpisodes sizes1 st).
Proof. apply foldl_app. Qed.

Lemma addEpisodes_bump sizes n t st :
  addEpisodes sizes (bump n t st) =
  bump (n + Z.of_nat (length sizes)) (t + sumZ sizes) st.
Proof.
  revert n t. induction sizes as [|size sizes IH]; intros n t; simpl.
  - f_equal; lia.
  - change (addEpisode size (bump n t st)) with (bump 1 size (bump n t st)).
    rewrite bump_bump, IH. f_equal; lia.
Qed.

Lemma addEpisodes_reset sizes st :
  addEpisodes sizes (resetStat st) =
  mkSeriesStat (stTitle st) (wrap32 (Z.of_nat (length sizes)))
               (wrap64 (sumZ sizes)) (EpisodesURLs st).
Proof.
  assert (resetStat st = bump 0 0 (resetStat st)) as ->.
  { symmetry. apply bump_0; simpl; unfold int64_min, int64_max; lia. }
  rewrite addEpisodes_bump. reflexivity.
Qed.

Section Aggregation.
Variable W : World.

(** [getEpisodeSize] performs the HEAD exchange and returns the size that
    exchange delivered, or an error when it delivered none. *)
Lemma getEpisodeSize_spec url s :
  let ev := exchange W s (sizeRequest url) in
  ∃ r, getEpisodeSize W url s = (Done r, addEvent ev s) ∧
       sizeObtained ev = match r with inr size => Some size | inl _ => None end ∧
       listingObtained W ev = None.
Proof.
  unfold getEpisodeSize, exchange, addEvent, sizeRequest, timeout5s,
    sizeObtained, listingObtained, http_StatusOK.
  mprims.
  destruct (respond W (trace s) _) as [e|resp]; [eauto|].
  destruct (StatusCode resp =? 200); simpl; eauto.
Qed.

(** [getEpisodes] performs the GET exchange and returns the list that
    exchange delivered, or an error when it delivered none. *)
Lemma getEpisodes_spec url s :
  let ev := exchange W s (episodesRequest url) in
  ∃ r, getEpisodes W url s = (Done r, addEvent ev s) ∧
       listingObtained W ev = match r with inr eps => Some eps | inl _ => None end ∧
       sizeObtained ev = None.
Proof.
  unfold getEpisodes, exchange, addEvent, episodesRequest, timeout5s,
    sizeObtained, listingObtained, http_StatusOK.
  mprims.
  destruct (respond W (trace s) _) as [e|resp]; [eauto|].
  destruct (StatusCode resp =? 200); simpl; [|eauto].
  destruct (Body resp) as [e|body]; [eauto|].
  destruct (unmarshalEpisodes W body); eauto.
Qed.

Lemma episodesLoop_spec stat eps s :
  ∃ o evs,
    episodesLoop W stat eps s =
      (Done o, mkState (trace s ++ evs) (stdout s)
                       (alter (addEpisodes (sizesObtained evs)) stat (heap s))) ∧
    Forall aggExchange evs ∧
    episodesListed W evs = [] ∧
    requestsOf GET evs = [] ∧
    (o = None → length (sizesObtained evs) = length eps ∧
                requestsOf HEAD evs = PlayURL <$> eps).
Proof.
  revert s. induction eps as [|episode rest IH]; intros s.
  - exists None, []. simpl. mprims.
    rewrite app_nil_r, list_alter_id by done. by destruct s.
  - simpl. destruct (getEpisodeSize_spec (PlayURL episode) s) as (r & Hr & Hsz & Hls).
    rewrite bind_eq, Hr.
    set (ev := exchange W s (sizeRequest (PlayURL episode))) in *.
    assert (Hev : aggExchange ev) by (split; [by right|done]).
    assert (Hget : requestsOf GET [ev] = []) by done.
    assert (Hepl : episodesListed W [ev] = []).
    { by rewrite episodesListed_cons, Hls. }
    destruct r as [err|size].
    + exists (Some err), [ev]. rewrite sizesObtained_cons, Hsz. simpl.
      rewrite list_alter_id by done.
      split_and!; [done|by constructor|done|done|done].
    + mprims. unfold addEvent. simpl.
      match goal with |- context [episodesLoop W stat rest ?s1] =>
        destruct (IH s1) as (o & evs & Hrun & Hall & Hlist & Hgets & Hok) end.
      cbn [trace stdout heap] in Hrun. rewrite Hrun.
      exists o, (ev :: evs).
      split.
      { f_equal. f_equal; [by rewrite <- app_assoc|].
        rewrite !list_alter_alter_eq.
        apply list_alter_ext; [|done]. intros x _.
        rewrite sizesObtained_cons, Hsz. reflexivity. }
      split; [by constructor|].
      split. { change (ev :: evs) with ([ev] ++ evs). by rewrite episodesListed_app, Hepl, Hlist. }
      split. { change (ev :: evs) with ([ev] ++ evs). by rewrite requestsOf_app, Hget, Hgets. }
      intros Ho. destruct (Hok Ho) as [Hlen Hheads].
      change (requestsOf HEAD (ev :: evs)) with (requestsOf HEAD ([ev] ++ evs)).
      rewrite requestsOf_app, Hheads, sizesObtained_cons, Hsz. simpl.
      by rewrite Hlen.
Qed.

Lemma urlsLoop_spec stat urls s :
  ∃ o evs,
    urlsLoop W stat urls s =
      (Done o, mkState (trace s ++ evs) (stdout s)
                       (alter (addEpisodes (sizesObtained evs)) stat (heap s))) ∧
    Forall aggExchange evs ∧
    (o = None →
       length (sizesObtained evs) = length (episodesListed W evs) ∧
       requestsOf GET evs = urls ∧
       requestsOf HEAD evs = PlayURL <$> episodesListed W evs).
Proof.
  revert s. induction urls as [|url rest IH]; intros s.
  - exists None, []. simpl. mprims.
    rewrite app_nil_r, list_alter_id by done. by destruct s.
  - simpl. destruct (getEpisodes_spec url s) as (r & Hr & Hls & Hsz).
    rewrite bind_eq, Hr.
    set (ev := exchange W s (episodesRequest url)) in *.
    assert (Hev : aggExchange ev) by (split; [by left|done]).
    assert (Hget : requestsOf GET [ev] = [url]) by done.
    assert (Hhead : requestsOf HEAD [ev] = []) by done.
    destruct r as [err|episodes].
    + exists (Some err), [ev]. rewrite sizesObtained_cons, Hsz. simpl.
      rewrite list_alter_id by done.
      split_and!; [done|by constructor|done].
    + destruct (episodesLoop_spec stat episodes (addEvent ev s))
        as (o1 & evs1 & Hrun1 & Hall1 & Hlist1 & Hgets1 & Hok1).
      cbn [addEvent trace stdout heap] in Hrun1.
      rewrite bind_eq, Hrun1.
      destruct o1 as [err|].
      * exists (Some err), (ev :: evs1). mprims.
        split_and!; [|by constructor|done].
        f_equal. f_equal; [by rewrite <- app_assoc|].
        by rewrite sizesObtained_cons, Hsz.
      * match goal with |- context [urlsLoop W stat rest ?s1] =>
          destruct (IH s1) as (o & evs & Hrun & Hall & Hok) end.
        cbn [trace stdout heap] in Hrun. rewrite Hrun.
        destruct (Hok1 eq_refl) as [Hlen1 Hheads1].
        exists o, (ev :: evs1 ++ evs).
        split_and!.
        -- f_equal. f_equal; [by rewrite <- !app_assoc|].
           rewrite list_alter_alter_eq.
           apply list_alter_ext; [|done]. intros x _.
           rewrite sizesObtained_cons, Hsz, sizesObtained_app. simpl.
           by rewrite addEpisodes_app.
        -- constructor; [done|]. by apply Forall_app.
        -- intros Ho. destruct (Hok Ho) as (Hlen & Hgets & Hheads).
           rewrite sizesObtained_cons, Hsz, episodesListed_cons, Hls.
           rewrite sizesObtained_app, !episodesListed_app, Hlist1. simpl.
           change (ev :: evs1 ++ evs) with ([ev] ++ evs1 ++ evs).
           rewrite !requestsOf_app, Hget, Hhead, Hgets1, Hgets, Hheads1, Hheads.
           simpl. rewrite fmap_app, !length_app, Hlen1, Hlen. done.
Qed.

Lemma EpisodesURLs_alter (f : SeriesStat → SeriesStat) (h : list SeriesStat) i :
  (∀ x, EpisodesURLs (f x) = EpisodesURLs x) →
  EpisodesURLs (alter f i h !!! i) = EpisodesURLs (h !!! i).
Proof.
  intros Hf. rewrite !list_lookup_total_alt, list_lookup_alter_eq.
  destruct (h !! i); simpl; [apply Hf|done].
Qed.

(** The whole of [aggregateStats]: it returns; the only effect besides the
    exchanges is on the object [stat] points to, which is reset and then
    receives one [addEpisode] per size obtained; on success every URL of
    the series was fetched, in order, and every episode listed was sized. *)
Lemma aggregateStats_spec stat s :
  ∃ o evs,
    aggregateStats W stat s =
      (Done o, mkState (trace s ++ evs) (stdout s)
                 (alter (λ st, addEpisodes (sizesObtained evs) (resetStat st))
                        stat (heap s))) ∧
    Forall aggExchange evs ∧
    (o = None →
       length (sizesObtained evs) = length (episodesListed W evs) ∧
       requestsOf GET evs = EpisodesURLs (heap s !!! stat) ∧
       requestsOf HEAD evs = PlayURL <$> episodesListed W evs).
Proof.
  unfold aggregateStats. mprims.
  match goal with |- context [urlsLoop W stat ?urls ?s1] =>
    destruct (urlsLoop_spec stat urls s1) as (o & evs & Hrun & Hall & Hok) end.
  cbn [trace stdout heap] in Hrun. rewrite Hrun.
  exists o, evs. split_and!; [|done|].
  - f_equal. f_equal. rewrite !list_alter_alter_eq. reflexivity.
  - intros Ho. destruct (Hok Ho) as (Hlen & Hgets & Hheads).
    split_and!; [done| |done].
    rewrite Hgets, list_alter_alter_eq. by apply EpisodesURLs_alter.
Qed.

End Aggregation.

(** C2 (as amended).  When [aggregateStats] returns no error for a series:
    the episode-list URLs fetched are exactly those collected for the
    series, in order; every [Episode] entry listed was sized by one HEAD
    request to its play URL; the series' [Count] is the number of entries
    listed modulo [2^32] and its [TotalSize] is the sum of the sizes obtained
    wrapped to [int64].  Hence they are that number and that sum exactly
    whenever these fit the two types. *)
Theorem aggregateStats_totals (W : World) (stat : ptr) (s s' : State) :
  (stat < length (heap s))%nat →
  aggregateStats W stat s = (Done None, s') →
  let evs := newEvents s s' in
  let episodes := episodesListed W evs in
  let sizes := sizesObtained evs in
  trace s' = trace s ++ evs ∧
  requestsOf GET evs = EpisodesURLs (heap s !!! stat) ∧
  requestsOf HEAD evs = PlayURL <$> episodes ∧
  length sizes = length episodes ∧
  Count (heap s' !!! stat) = wrap32 (Z.of_nat (length episodes)) ∧
  TotalSize (heap s' !!! stat) = wrap64 (sumZ sizes) ∧
  (Z.of_nat (length episodes) < 2 ^ 32 →
     Count (heap s' !!! stat) = Z.of_nat (length episodes)) ∧
  (int64_min ≤ sumZ sizes ≤ int64_max →
     TotalSize (heap s' !!! stat) = sumZ sizes).
Proof.
  intros Hvalid Hrun evs episodes sizes.
  destruct (aggregateStats_spec W stat s) as (o & evs0 & Hrun0 & _ & Hok).
  rewrite Hrun in Hrun0. injection Hrun0 as <- ->.
  assert (evs = evs0) as Hevs.
  { subst evs. unfold newEvents. simpl. apply drop_app_length. }
  subst episodes sizes. rewrite Hevs. clear Hevs evs.
  destruct (Hok eq_refl) as (Hlen & Hgets & Hheads).
  cbn [trace heap].
  rewrite list_lookup_total_alter_eq by done.
  rewrite addEpisodes_reset. cbn [Count TotalSize].
  rewrite Hlen.
  split_and!; try done.
  - intros Hsmall. apply wrap32_small. lia.
  - intros Hfit. by apply wrap64_small.
Qed.

Lemma aggregateStats_totals_witness :
  ∃ s', aggregateStats scenarioWorld 0%nat (grouped [recA1; recB; recA2])
          = (Done None, s') ∧
        Count (heap s' !!! 0%nat) = 2 ∧
        TotalSize (heap s' !!! 0%nat) = 2147483648.
Proof.
  eexists. split; [vm_compute; reflexivity|].
  match goal with |- Count (heap ?s' !!! _) = _ ∧ _ =>
    assert (Hvalid : (0 < length (heap (grouped [recA1; recB; recA2])))%nat)
      by (vm_compute; lia);
    assert (Hrun : aggregateStats scenarioWorld 0%nat
                     (grouped [recA1; recB; recA2]) = (Done None, s'))
      by (vm_compute; reflexivity);
    destruct (aggregateStats_totals scenarioWorld 0%nat _ s' Hvalid Hrun)
      as (_ & _ & _ & _ & _ & _ & Hc & Ht)
  end.
  split.
  - etrans; [apply Hc|]; vm_compute; reflexivity.
  - etrans; [apply Ht|vm_compute; reflexivity].
    vm_compute. split; discriminate.
Defined.

(** C2 as stated fails: with two episodes of [2^62] bytes the sum of the
    sizes is [2^63], which [int64] cannot hold; [TotalSize] ends at
    [-2^63]. *)
Lemma aggregateStats_total_overflows :
  ¬ (∀ (W : World) (stat : ptr) (s s' : State),
       (stat < length (heap s))%nat →
       aggregateStats W stat s = (Done None, s') →
       Count (heap s' !!! stat) =
         Z.of_nat (length (episodesListed W (newEvents s s'))) ∧
       TotalSize (heap s' !!! stat) = sumZ (sizesObtained (newEvents s s'))).
Proof.
  intros H.
  assert (Hrun : ∃ s', aggregateStats hugeWorld 0%nat (grouped [recBig])
                       = (Done None, s')).
  { eexists. vm_compute. reflexivity. }
  destruct Hrun as [s' Hrun].
  destruct (H hugeWorld 0%nat (grouped [recBig]) s'
              ltac:(vm_compute; lia) Hrun) as [_ Hsum].
  revert Hsum. vm_compute in Hrun. injection Hrun as <-.
  vm_compute. discriminate.
Qed.
(** *** The counters never go down, as long as sizes are known and fit *)

Lemma sumZ_take_le (l : list Z) k :
  Forall (λ z, 0 ≤ z) l → 0 ≤ sumZ (take k l) ≤ sumZ l.
Proof.
  intros Hl. rewrite <- (take_drop k l) at 3. rewrite sumZ_app.
  pose proof (sumZ_nonneg (take k l) (Forall_take _ k _ Hl)).
  pose proof (sumZ_nonneg (drop k l) (Forall_drop _ k _ Hl)). lia.
Qed.

Lemma sumZ_take_S (l : list Z) k :
  Forall (λ z, 0 ≤ z) l → sumZ (take k l) ≤ sumZ (take (S k) l).
Proof.
  intros Hl. destruct (l !! k) as [x|] eqn:Hk.
  - rewrite (take_S_r _ _ _ Hk), sumZ_app. simpl.
    pose proof (Forall_lookup_1 _ _ _ _ Hl Hk). simpl in *. lia.
  - apply lookup_ge_None in Hk. rewrite !take_ge by lia. lia.
Qed.

(** C6 (as amended).  [aggregateStats] always returns.  It resets both
    counters of the series to zero and then applies [addEpisode] once per
    size obtained, so [Count] ends in [[0, 2^32)].  [TotalSize] grows by the
    reported content length of each episode: provided every length obtained
    is non-negative and the counters stay within their types, neither
    counter ever decreases from one episode to the next and [TotalSize]
    ends non-negative. *)
Theorem aggregateStats_counters (W : World) (stat : ptr) (s : State) :
  (stat < length (heap s))%nat →
  ∃ o s',
    aggregateStats W stat s = (Done o, s') ∧
    let sizes := sizesObtained (newEvents s s') in
    let st0 := resetStat (heap s !!! stat) in
    Count st0 = 0 ∧ TotalSize st0 = 0 ∧
    heap s' !!! stat = addEpisodes sizes st0 ∧
    0 ≤ Count (heap s' !!! stat) < 2 ^ 32 ∧
    (Forall (λ size, 0 ≤ size) sizes →
     sumZ sizes ≤ int64_max →
     Z.of_nat (length sizes) < 2 ^ 32 →
       0 ≤ TotalSize (heap s' !!! stat) ∧
       ∀ k, Count (addEpisodes (take k sizes) st0)
              ≤ Count (addEpisodes (take (S k) sizes) st0) ∧
            TotalSize (addEpisodes (take k sizes) st0)
              ≤ TotalSize (addEpisodes (take (S k) sizes) st0)).
Proof.
  intros Hvalid.
  destruct (aggregateStats_spec W stat s) as (o & evs & Hrun & _ & _).
  eexists o, _. split; [exact Hrun|].
  unfold newEvents. cbn [trace heap]. rewrite drop_app_length.
  rewrite list_lookup_total_alter_eq by done.
  set (sizes := sizesObtained evs). set (st := heap s !!! stat).
  cbv zeta. do 3 (split; [done|]). split.
  - rewrite addEpisodes_reset. cbn [Count]. apply wrap32_range.
  - intros Hpos Hfit Hlen. split.
    + rewrite addEpisodes_reset. cbn [TotalSize].
      pose proof (sumZ_nonneg _ Hpos).
      rewrite wrap64_small; [done|]. unfold int64_min. lia.
    + intros k. rewrite !addEpisodes_reset. cbn [Count TotalSize].
      pose proof (sumZ_take_le sizes k Hpos).
      pose proof (sumZ_take_le sizes (S k) Hpos).
      pose proof (sumZ_take_S sizes k Hpos).
      assert (length (take k sizes) ≤ length (take (S k) sizes))%nat
        by (rewrite !length_take; lia).
      assert (length (take (S k) sizes) ≤ length sizes)%nat
        by (rewrite length_take; lia).
      rewrite !wrap32_small, !wrap64_small; unfold int64_min; lia.
Qed.

Lemma aggregateStats_counters_witness :
  ∃ s', aggregateStats scenarioWorld 0%nat (grouped [recA1; recB; recA2])
          = (Done None, s') ∧
        0 ≤ TotalSize (heap s' !!! 0%nat).
Proof.
  eexists. split; [vm_compute; reflexivity|].
  match goal with |- 0 ≤ TotalSize (heap ?s' !!! _) =>
    destruct (aggregateStats_counters scenarioWorld 0%nat
                (grouped [recA1; recB; recA2]) ltac:(vm_compute; lia))
      as (o & s1 & Hrun & H);
    assert (Hrun0 : aggregateStats scenarioWorld 0%nat
                      (grouped [recA1; recB; recA2]) = (Done None, s'))
      by (vm_compute; reflexivity);
    rewrite Hrun0 in Hrun; injection Hrun as <- <-
  end.
  cbv zeta in H. destruct H as (_ & _ & _ & _ & H).
  apply H.
  - vm_compute. repeat constructor; discriminate.
  - vm_compute. discriminate.
  - vm_compute. reflexivity.
Defined.

(** C6 as stated fails: a HEAD answer without a content length is reported
    by Go as [-1], and [aggregateStats] adds it like any other size. *)
Lemma aggregateStats_total_negative :
  ¬ (∀ (W : World) (stat : ptr) (s : State) o s',
       (stat < length (heap s))%nat →
       aggregateStats W stat s = (Done o, s') →
       0 ≤ Count (heap s' !!! stat) ∧ 0 ≤ TotalSize (heap s' !!! stat)).
Proof.
  intros H.
  assert (Hrun : ∃ s', aggregateStats unknownLengthWorld 0%nat (grouped [recLive])
                       = (Done None, s') ∧ TotalSize (heap s' !!! 0%nat) = -1).
  { eexists. split; vm_compute; reflexivity. }
  destruct Hrun as (s' & Hrun & Hneg).
  destruct (H unknownLengthWorld 0%nat (grouped [recLive]) None s'
              ltac:(vm_compute; lia) Hrun) as [_ Hpos].
  lia.
Qed.

(** ** Grouping *)

Lemma wfMap_empty h : wfMap h ∅.
Proof. split; intros *; rewrite lookup_empty; discriminate. Qed.

Lemma collectStep_spec m rec s :
  wfMap (heap s) m →
  ∃ m' h',
    collectStep m rec s = (Done m', mkState (trace s) (stdout s) h') ∧
    wfMap h' m' ∧
    view h' m' = groupStep (view (heap s) m) rec.
Proof.
  intros [Halloc Hinj]. unfold collectStep. mprims.
  destruct (m !! SeriesID rec) as [p|] eqn:Hm; cbn [trace stdout heap].
  - eexists _, _. split; [reflexivity|]. split.
    + split; [|done]. intros k q Hk. rewrite !length_alter. eauto.
    + apply map_eq. intros k. unfold view, groupStep.
      rewrite lookup_fmap.
      destruct (decide (k = SeriesID rec)) as [->|Hne].
      * rewrite lookup_insert_eq, lookup_fmap, Hm. simpl. f_equal.
        rewrite !list_lookup_total_alter_eq; [done|by eauto|].
        rewrite length_alter. eauto.
      * rewrite lookup_insert_ne, lookup_fmap by done.
        destruct (m !! k) as [q|] eqn:Hk; simpl; [|done]. f_equal.
        assert (p ≠ q) by (intros ->; eauto).
        by rewrite !list_lookup_total_alter_ne.
  - eexists _, _. split; [reflexivity|]. split.
    + split.
      * intros k q. rewrite !length_alter, length_app. simpl.
        rewrite lookup_insert. case_decide; [intros [= <-]; lia|].
        intros Hk. apply Halloc in Hk. lia.
      * intros k1 k2 q. rewrite !lookup_insert.
        repeat case_decide; subst; try done.
        -- intros [= <-] Hk. apply Halloc in Hk. lia.
        -- intros Hk [= <-]. apply Halloc in Hk. lia.
        -- apply Hinj.
    + apply map_eq. intros k. unfold view, groupStep.
      rewrite lookup_fmap.
      destruct (decide (k = SeriesID rec)) as [->|Hne].
      * rewrite !lookup_insert_eq, lookup_fmap, Hm. simpl. f_equal.
        rewrite !list_lookup_total_alter_eq;
          [|rewrite ?length_alter, length_app; simpl; lia..].
        by rewrite list_lookup_total_middle.
      * rewrite !lookup_insert_ne, lookup_fmap by done.
        destruct (m !! k) as [q|] eqn:Hk; simpl; [|done]. f_equal.
        apply Halloc in Hk.
        rewrite !list_lookup_total_alter_ne by lia.
        by rewrite lookup_total_app_l.
Qed.

Lemma collectLoop_spec recs m s :
  wfMap (heap s) m →
  ∃ m' h',
    collectLoop m recs s = (Done m', mkState (trace s) (stdout s) h') ∧
    wfMap h' m' ∧
    view h' m' = foldl groupStep (view (heap s) m) recs.
Proof.
  revert m s. induction recs as [|rec rest IH]; intros m s Hwf.
  - exists m, (heap s). simpl. mprims. by destruct s.
  - simpl. destruct (collectStep_spec m rec s Hwf) as (m1 & h1 & Hrun & Hwf1 & Hview).
    rewrite bind_eq, Hrun.
    destruct (IH m1 (mkState (trace s) (stdout s) h1) Hwf1)
      as (m' & h' & Hrun' & Hwf' & Hview').
    exists m', h'. cbn [trace stdout heap] in *.
    by rewrite Hrun', Hview', Hview.
Qed.

(** [collectRecordings] returns; it touches neither the trace nor the
    output; the objects it leaves behind the map are those of the pure
    grouping. *)
Lemma collectRecordings_spec recs s :
  ∃ m h',
    collectRecordings recs s = (Done m, mkState (trace s) (stdout s) h') ∧
    wfMap h' m ∧
    view h' m = foldl groupStep ∅ recs.
Proof.
  destruct (collectLoop_spec recs ∅ s (wfMap_empty _)) as (m & h' & ? & ? & Hv).
  exists m, h'. unfold view in Hv at 2. by rewrite fmap_empty in Hv.
Qed.

(** *** The pure grouping *)

Lemma addRecordings_title recs st : stTitle (addRecordings recs st) = stTitle st.
Proof. revert st. induction recs as [|r recs IH]; intros st; simpl; [done|]. by rewrite IH. Qed.

Lemma addRecordings_size recs st : TotalSize (addRecordings recs st) = TotalSize st.
Proof. revert st. induction recs as [|r recs IH]; intros st; simpl; [done|]. by rewrite IH. Qed.

Lemma addRecordings_urls recs st :
  EpisodesURLs (addRecordings recs st) = EpisodesURLs st ++ (EpisodesURL <$> recs).
Proof.
  revert st. induction recs as [|r recs IH]; intros st; simpl.
  - by rewrite app_nil_r.
  - rewrite IH. simpl. by rewrite <- app_assoc.
Qed.

Lemma addRecordings_count recs st :
  0 ≤ Count st < 2 ^ 32 →
  Count (addRecordings recs st) = wrap32 (Count st + Z.of_nat (length recs)).
Proof.
  revert st. induction recs as [|r recs IH]; intros st Hst; simpl.
  - rewrite Z.add_0_r. symmetry. by apply wrap32_small.
  - rewrite IH by apply wrap32_range. simpl.
    rewrite wrap32_add_l. f_equal. lia.
Qed.

Lemma foldl_groupStep_lookup recs v sid :
  foldl groupStep v recs !! sid =
  match ofSeries sid recs with
  | [] => v !! sid
  | first :: others =>
    Some (addRecordings (first :: others)
            (default (newSeriesStat (Title first)) (v !! sid)))
  end.
Proof.
  revert v. induction recs as [|rec rest IH]; intros v; [done|].
  simpl. rewrite IH. unfold ofSeries in *. unfold groupStep.
  destruct (decide (SeriesID rec = sid)) as [<-|Hne].
  - rewrite filter_cons_True by done. rewrite lookup_insert_eq.
    by destruct (filter _ rest).
  - rewrite filter_cons_False by done. by rewrite lookup_insert_ne.
Qed.

Lemma allURLs_groupStep v rec :
  allURLs (groupStep v rec) ≡ₚ allURLs v ++ [EpisodesURL rec].
Proof.
  unfold allURLs, groupStep.
  destruct (v !! SeriesID rec) as [st|] eqn:Hv; simpl.
  - rewrite <- insert_delete_eq.
    rewrite map_to_list_insert by apply lookup_delete_eq.
    rewrite <- (map_to_list_delete v _ _ Hv). simpl.
    rewrite <- !app_assoc. apply Permutation_app_head.
    apply Permutation_app_comm.
  - rewrite map_to_list_insert by done. simpl.
    apply Permutation_cons_append.
Qed.

Lemma allURLs_foldl recs v :
  allURLs (foldl groupStep v recs) ≡ₚ allURLs v ++ (EpisodesURL <$> recs).
Proof.
  revert v. induction recs as [|rec rest IH]; intros v; simpl.
  - by rewrite app_nil_r.
  - rewrite IH, allURLs_groupStep, <- app_assoc. done.
Qed.

Lemma allURLs_view h m :
  allURLs (view h m) =
  concat ((λ kp, EpisodesURLs (h !!! kp.2)) <$> map_to_list m).
Proof.
  unfold allURLs, view. rewrite map_to_list_fmap, <- list_fmap_compose.
  reflexivity.
Qed.

Lemma view_lookup h m k :
  view h m !! k = (λ p, h !!! p) <$> m !! k.
Proof. apply lookup_fmap. Qed.

Lemma ofSeries_nonempty sid recs :
  sid ∈ SeriesID <$> recs → ∃ first others, ofSeries sid recs = first :: others.
Proof.
  intros (rec & -> & Hin)%list_elem_of_fmap.
  assert (rec ∈ ofSeries (SeriesID rec) recs) as Hin'.
  { apply list_elem_of_filter. done. }
  destruct (ofSeries (SeriesID rec) recs) as [|first others]; [|eauto].
  by apply not_elem_of_nil in Hin'.
Qed.

(** C4.  For a series identity occurring in the input, the object grouping
    leaves under that key has the title of the first recording of the
    series and, as its URL list, the [EpisodesURL] of the recordings of the
    series in input order (its provisional count is their number, its size
    zero). *)
Theorem collectRecordings_series (recs : list Recording) (s : State) (sid : string) :
  sid ∈ SeriesID <$> recs →
  ∃ m s' p first,
    collectRecordings recs s = (Done m, s') ∧
    m !! sid = Some p ∧ (p < length (heap s'))%nat ∧
    head (ofSeries sid recs) = Some first ∧
    stTitle (heap s' !!! p) = Title first ∧
    EpisodesURLs (heap s' !!! p) = EpisodesURL <$> ofSeries sid recs ∧
    Count (heap s' !!! p) = wrap32 (Z.of_nat (length (ofSeries sid recs))) ∧
    TotalSize (heap s' !!! p) = 0.
Proof.
  intros Hin.
  destruct (collectRecordings_spec recs s) as (m & h' & Hrun & Hwf & Hview).
  destruct (ofSeries_nonempty sid recs Hin) as (first & others & Hof).
  pose proof (foldl_groupStep_lookup recs ∅ sid) as Hl.
  rewrite <- Hview, Hof, lookup_empty, view_lookup in Hl. simpl in Hl.
  destruct (m !! sid) as [p|] eqn:Hm; [|discriminate]. simpl in Hl.
  injection Hl as Hl.
  eexists m, _, p, first. split; [exact Hrun|]. cbn [heap].
  split; [done|]. split; [by eapply wf_alloc|].
  rewrite Hof, Hl. split; [done|].
  change (addRecordings others (addRecording first (newSeriesStat (Title first))))
    with (addRecordings (first :: others) (newSeriesStat (Title first))).
  rewrite addRecordings_title, addRecordings_urls, addRecordings_size.
  rewrite addRecordings_count by (simpl; lia).
  done.
Qed.

Lemma collectRecordings_series_witness :
  ∃ m s' p,
    collectRecordings [recA1; recB; recA2] initState = (Done m, s') ∧
    m !! "A" = Some p ∧
    stTitle (heap s' !!! p) = "Show A" ∧
    EpisodesURLs (heap s' !!! p) =
      ["http://10.0.0.5/episodes?A1"; "http://10.0.0.5/episodes?A2"].
Proof.
  destruct (collectRecordings_series [recA1; recB; recA2] initState "A")
    as (m & s' & p & first & Hrun & Hm & _ & Hfirst & Ht & Hu & _).
  { vm_compute. set_solver. }
  exists m, s', p. injection Hfirst as <-. by rewrite Ht, Hu.
Defined.

(** C3.  Grouping partitions the input by series identity.  The map has a
    key exactly for the identities occurring in the input; the object under
    a key is allocated, is shared with no other key, and holds exactly the
    URLs of the recordings of that series; and all the URL lists together
    are a permutation of the [EpisodesURL] of the input. *)
Theorem collectRecordings_partition (recs : list Recording) (s : State) :
  ∃ m s',
    collectRecordings recs s = (Done m, s') ∧
    (∀ sid, is_Some (m !! sid) ↔ sid ∈ SeriesID <$> recs) ∧
    (∀ rec, rec ∈ recs →
       ∃ p, m !! SeriesID rec = Some p ∧ (p < length (heap s'))%nat ∧
            (∀ k, m !! k = Some p → k = SeriesID rec) ∧
            EpisodesURLs (heap s' !!! p)
              = EpisodesURL <$> ofSeries (SeriesID rec) recs) ∧
    concat ((λ kp, EpisodesURLs (heap s' !!! kp.2)) <$> map_to_list m)
      ≡ₚ EpisodesURL <$> recs.
Proof.
  destruct (collectRecordings_spec recs s) as (m & h' & Hrun & Hwf & Hview).
  eexists m, _. split; [exact Hrun|]. cbn [heap].
  assert (Hlook : ∀ sid, (λ p, h' !!! p) <$> m !! sid =
            match ofSeries sid recs with
            | [] => None
            | first :: others =>
              Some (addRecordings (first :: others) (newSeriesStat (Title first)))
            end).
  { intros sid. rewrite <- view_lookup, Hview, foldl_groupStep_lookup.
    rewrite lookup_empty. done. }
  assert (Hkeys : ∀ sid, is_Some (m !! sid) ↔ sid ∈ SeriesID <$> recs).
  { intros sid. specialize (Hlook sid). split.
    - intros [p Hp]. rewrite Hp in Hlook.
      destruct (ofSeries sid recs) as [|first others] eqn:Hof; [discriminate|].
      assert (first ∈ ofSeries sid recs) as Hin by (rewrite Hof; left).
      apply list_elem_of_filter in Hin as [<- Hin].
      by apply list_elem_of_fmap_2.
    - intros Hin. destruct (ofSeries_nonempty sid recs Hin) as (f & o & Hof).
      rewrite Hof in Hlook. destruct (m !! sid); [eauto|discriminate]. }
  split; [exact Hkeys|]. split.
  - intros rec Hin.
    destruct (proj2 (Hkeys (SeriesID rec))) as [p Hp].
    { by apply list_elem_of_fmap_2. }
    exists p. split; [done|]. split; [by eapply wf_alloc|]. split.
    + intros k Hk. eapply wf_inj; eauto.
    + specialize (Hlook (SeriesID rec)). rewrite Hp in Hlook.
      destruct (ofSeries (SeriesID rec) recs) as [|first others]; [discriminate|].
      injection Hlook as ->.
      change (addRecordings others (addRecording first (newSeriesStat (Title first))))
        with (addRecordings (first :: others) (newSeriesStat (Title first))).
      by rewrite addRecordings_urls.
  - rewrite <- allURLs_view, Hview, allURLs_foldl.
    unfold allURLs. by rewrite map_to_list_empty.
Qed.

Lemma collectRecordings_partition_witness :
  ∃ m s' p,
    collectRecordings [recA1; recB; recA2] initState = (Done m, s') ∧
    m !! "B" = Some p ∧
    EpisodesURLs (heap s' !!! p) = ["http://10.0.0.5/episodes?B1"].
Proof.
  destruct (collectRecordings_partition [recA1; recB; recA2] initState)
    as (m & s' & Hrun & _ & Hrec & _).
  destruct (Hrec recB) as (p & Hp & _ & _ & Hu).
  { vm_compute. set_solver. }
  exists m, s', p. split; [exact Hrun|]. split; [exact Hp|].
  rewrite Hu. reflexivity.
Defined.

(** ** Presentation *)

Lemma less_cmpTotalSize h a b :
  less (cmpTotalSize h) a b ↔ TotalSize (h !!! a) < TotalSize (h !!! b).
Proof.
  unfold less, cmpTotalSize.
  destruct (Z.ltb_spec (TotalSize (h !!! b)) (TotalSize (h !!! a)));
  destruct (Z.ltb_spec (TotalSize (h !!! a)) (TotalSize (h !!! b))); lia.
Qed.

(** The comparison of [printSeriesMap] is a strict weak ordering, as
    [slices.SortFunc] requires. *)
Lemma cmpTotalSize_swo h : StrictWeakOrder (less (cmpTotalSize h)).
Proof.
  split; intros *; rewrite !less_cmpTotalSize; lia.
Qed.

Lemma StronglySorted_adjacent {A} (R : relation A) l i a b :
  StronglySorted R l → l !! i = Some a → l !! S i = Some b → R a b.
Proof.
  intros Hs. revert i. induction Hs as [|x l Hs IH Hall]; intros i; [done|].
  destruct i as [|i]; simpl.
  - intros [= ->] Hb. destruct l as [|y l]; [done|].
    injection Hb as ->. by inversion Hall.
  - apply IH.
Qed.

Lemma rowsLoop_spec stats s :
  rowsLoop stats s =
  (Done tt, mkState (trace s)
              (stdout s ++ (rowText <$> ((λ p, heap s !!! p) <$> stats)))
              (heap s)).
Proof.
  revert s. induction stats as [|stat rest IH]; intros s; simpl.
  - mprims. rewrite app_nil_r. by destruct s.
  - mprims. rewrite IH. cbn [trace stdout heap]. by rewrite <- app_assoc.
Qed.

Lemma printSeriesMap_spec W seriesMap s :
  printSeriesMap W seriesMap s =
  (Done tt, mkState (trace s) (stdout s ++ tableLines W seriesMap (heap s)) (heap s)).
Proof.
  unfold printSeriesMap, tableLines, tableRows. mprims.
  rewrite rowsLoop_spec. cbn [trace stdout heap].
  unfold headerLine, separatorLine.
  rewrite <- !app_assoc. reflexivity.
Qed.

(** C5.  [printSeriesMap] writes the header, the separator, one row per
    entry of the map and the summary.  The rows are the objects of the map
    in an order in which every row's [TotalSize] is at most that of the
    next row. *)
Theorem printSeriesMap_sorted (W : World) (seriesMap : gmap string ptr) (s : State) :
  let rows := tableRows W seriesMap (heap s) in
  printSeriesMap W seriesMap s =
    (Done tt,
     mkState (trace s)
       (stdout s ++ [headerLine; separatorLine] ++ (rowText <$> rows) ++
        [""; "Total Series Found: " +:+ pretty (size seriesMap)])
       (heap s)) ∧
  rows ≡ₚ (λ kp, heap s !!! kp.2) <$> map_to_list seriesMap ∧
  ∀ i earlier later,
    rows !! i = Some earlier → rows !! S i = Some later →
    TotalSize earlier ≤ TotalSize later.
Proof.
  intros rows. split; [apply printSeriesMap_spec|]. split.
  - subst rows. unfold tableRows, sortedStats.
    rewrite sortFunc_perm, mapRange_perm, <- list_fmap_compose. done.
  - intros i a b Ha Hb. subst rows. unfold tableRows in *.
    apply list_lookup_fmap_Some in Ha as (p & -> & Hp).
    apply list_lookup_fmap_Some in Hb as (q & -> & Hq).
    pose proof (sortFunc_sorted W (cmpTotalSize (heap s))
                  ((mapRange W 1 seriesMap).*2) (cmpTotalSize_swo _)) as Hs.
    pose proof (StronglySorted_adjacent _ _ _ _ _ Hs Hp Hq) as Hle.
    cbv beta in Hle. rewrite less_cmpTotalSize in Hle. lia.
Qed.

Lemma printSeriesMap_sorted_witness :
  ∃ sA sB,
    tableRows scenarioWorld {[ "A" := 0%nat; "B" := 1%nat ]}
      [mkSeriesStat "Show A" 2 2147483648 []; mkSeriesStat "Show B" 1 536870912 []]
      = [sB; sA] ∧
    TotalSize sB ≤ TotalSize sA.
Proof.
  eexists _, _. split; [vm_compute; reflexivity|].
  apply (proj2 (proj2 (printSeriesMap_sorted scenarioWorld
           {[ "A" := 0%nat; "B" := 1%nat ]}
           (mkState [] []
              [mkSeriesStat "Show A" 2 2147483648 [];
               mkSeriesStat "Show B" 1 536870912 []]))) 0%nat);
    vm_compute; reflexivity.
Defined.

(** *** The storage column *)

(** [roundHalfEven] returns a nearest integer to [num / den]. *)
Lemma roundHalfEven_nearest num den :
  0 < den → Z.abs (2 * (roundHalfEven num den * den - num)) ≤ den.
Proof.
  intros Hden. unfold roundHalfEven.
  pose proof (Z.div_mod num den ltac:(lia)) as Hdm.
  pose proof (Z.mod_pos_bound num den Hden) as Hr.
  destruct (Z.ltb_spec (2 * (num mod den)) den);
  [|destruct (Z.ltb_spec den (2 * (num mod den)));
    [|destruct (Z.even (num / den))]]; nia.
Qed.

(** On a tie [roundHalfEven] returns the even neighbour. *)
Lemma roundHalfEven_tie num den :
  0 < den → 2 * (num mod den) = den → Z.even (roundHalfEven num den) = true.
Proof.
  intros Hden Htie. unfold roundHalfEven.
  destruct (Z.ltb_spec (2 * (num mod den)) den); [lia|].
  destruct (Z.ltb_spec den (2 * (num mod den))); [lia|].
  destruct (Z.even (num / den)) eqn:He; [done|].
  rewrite Z.even_add, He. reflexivity.
Qed.

Lemma sizeGB_one_GiB : formatFixed2 (sizeGB 1073741824) = "1.00".
Proof. vm_compute. reflexivity. Qed.

Lemma sizeGB_zero : formatFixed2 (sizeGB 0) = "0.00".
Proof. vm_compute. reflexivity. Qed.

(** **** Binary digits *)

Lemma digits2_pos_bounds p :
  2 ^ (Z.pos (digits2_pos p) - 1) ≤ Z.pos p < 2 ^ Z.pos (digits2_pos p).
Proof.
  induction p as [p IH|p IH|]; simpl digits2_pos; [| |simpl; lia].
  all: rewrite Pos2Z.inj_succ;
    replace (Z.succ (Z.pos (digits2_pos p)) - 1)
      with (Z.succ (Z.pos (digits2_pos p) - 1)) by lia;
    rewrite !Z.pow_succ_r by lia; lia.
Qed.

Lemma digits2_pos_unique p d :
  2 ^ (d - 1) ≤ Z.pos p < 2 ^ d → Z.pos (digits2_pos p) = d.
Proof.
  intros [Hlo Hhi]. pose proof (digits2_pos_bounds p) as [Hlo' Hhi'].
  assert (0 < d).
  { destruct (Z.ltb_spec 0 d) as [|Hd]; [done|].
    destruct (Z.eq_dec d 0) as [->|]; [simpl in Hhi; lia|].
    rewrite Z.pow_neg_r in Hhi by lia. lia. }
  destruct (Z.lt_trichotomy (Z.pos (digits2_pos p)) d) as [Hlt|[Heq|Hgt]]; [|done|].
  - assert (2 ^ Z.pos (digits2_pos p) ≤ 2 ^ (d - 1)) by (apply Z.pow_le_mono_r; lia). lia.
  - assert (2 ^ d ≤ 2 ^ (Z.pos (digits2_pos p) - 1)) by (apply Z.pow_le_mono_r; lia). lia.
Qed.

Lemma pos_iter_xO p k : Z.pos (Pos.iter xO p k) = Z.pos p * 2 ^ Z.pos k.
Proof.
  induction k as [|k IH] using Pos.peano_ind.
  - simpl. lia.
  - rewrite Pos.iter_succ, Pos2Z.inj_xO, IH, Pos2Z.inj_succ, Z.pow_succ_r by lia. lia.
Qed.

Lemma iter_pos_nat {A} (f : A → A) p x :
  SpecFloat.iter_pos f p x = Nat.iter (Pos.to_nat p) f x.
Proof.
  revert x. induction p as [p IH|p IH|]; intros x; simpl SpecFloat.iter_pos.
  - rewrite !IH, Pos2Nat.inj_xI, Nat.iter_succ_r.
    replace (2 * Pos.to_nat p)%nat with (Pos.to_nat p + Pos.to_nat p)%nat by lia.
    by rewrite Nat.iter_add.
  - rewrite !IH, Pos2Nat.inj_xO.
    replace (2 * Pos.to_nat p)%nat with (Pos.to_nat p + Pos.to_nat p)%nat by lia.
    by rewrite Nat.iter_add.
  - reflexivity.
Qed.

(** One step of the right shift on a non-negative mantissa. *)
Lemma shr_1_nonneg m r s :
  0 ≤ m →
  shr_1 (Build_shr_record m r s) = Build_shr_record (m / 2) (Z.odd m) (r || s).
Proof.
  intros Hm. destruct m as [|[p|p|]|]; try lia; try reflexivity.
  - simpl shr_1. f_equal. rewrite Pos2Z.inj_xI.
    apply Z.div_unique with 1; lia.
  - simpl shr_1. f_equal. rewrite Pos2Z.inj_xO.
    apply Z.div_unique with 0; lia.
Qed.

Lemma shifted_0 m : shifted m 0 = Build_shr_record m false false.
Proof.
  unfold shifted. rewrite Z.pow_0_r, Z.div_1_r, Z.mod_1_r. reflexivity.
Qed.

Lemma shifted_succ m j :
  0 ≤ m → 0 ≤ j → shr_1 (shifted m j) = shifted m (Z.succ j).
Proof.
  intros Hm Hj. unfold shifted.
  assert (Hpow : 0 < 2 ^ j) by (apply Z.pow_pos_nonneg; lia).
  rewrite shr_1_nonneg by (apply Z.div_pos; lia).
  rewrite Z.pow_succ_r by done.
  pose proof (Z.mod_pos_bound m (2 ^ j) Hpow) as Ha.
  pose proof (Z.div_mod m (2 ^ j) ltac:(lia)) as Hdm.
  pose proof (Z.div_mod (m / 2 ^ j) 2 ltac:(lia)) as Hdq.
  pose proof (Z.mod_pos_bound (m / 2 ^ j) 2 ltac:(lia)) as Hb.
  assert (Hdiv : m / (2 * 2 ^ j) = m / 2 ^ j / 2).
  { rewrite (Z.mul_comm 2), Z.div_div by lia. reflexivity. }
  assert (Hmod : m mod (2 * 2 ^ j) = m mod 2 ^ j + 2 ^ j * ((m / 2 ^ j) mod 2)).
  { symmetry. apply Z.mod_unique with (m / 2 ^ j / 2); [nia|nia]. }
  rewrite Hdiv, Hmod.
  rewrite (Zmod_odd (m / 2 ^ j)) in *.
  f_equal.
  all: destruct (Z.odd (m / 2 ^ j));
    repeat match goal with
    | |- context [?a <=? ?b] => destruct (Z.leb_spec a b)
    | |- context [?a =? ?b] => destruct (Z.eqb_spec a b)
    end; simpl; try reflexivity; lia.
Qed.

Lemma iter_shr_1 m (n : nat) :
  0 ≤ m →
  Nat.iter n shr_1 (Build_shr_record m false false) = shifted m (Z.of_nat n).
Proof.
  intros Hm. induction n as [|n IH].
  - simpl. by rewrite shifted_0.
  - rewrite Nat2Z.inj_succ. simpl Nat.iter. rewrite IH.
    apply shifted_succ; lia.
Qed.

Lemma shr_exact m e k :
  0 ≤ m → 0 ≤ k →
  shr (Build_shr_record m false false) e k = (shifted m k, e + k).
Proof.
  intros Hm Hk. destruct k as [|p|p]; [| |lia].
  - simpl. by rewrite shifted_0, Z.add_0_r.
  - unfold shr. rewrite iter_pos_nat, iter_shr_1, positive_nat_Z by done.
    reflexivity.
Qed.

Lemma round_shifted m j :
  0 ≤ m → 0 ≤ j →
  round_nearest_even (shr_m (shifted m j)) (loc_of_shr_record (shifted m j)) =
  roundHalfEven m (2 ^ j).
Proof.
  intros Hm Hj. unfold shifted, roundHalfEven. cbn [shr_m loc_of_shr_record].
  assert (Hpow : 0 < 2 ^ j) by (apply Z.pow_pos_nonneg; lia).
  pose proof (Z.mod_pos_bound m (2 ^ j) Hpow) as Ha.
  repeat match goal with
    | |- context [?a <=? ?b] => destruct (Z.leb_spec a b)
    | |- context [?a =? ?b] => destruct (Z.eqb_spec a b)
    | |- context [?a <? ?b] => destruct (Z.ltb_spec a b)
    end; simpl; try reflexivity; try lia.
Qed.

(** **** Conversion of an integer *)

Lemma Zdigits2_unique m d : 2 ^ (d - 1) ≤ m < 2 ^ d → 0 < m → Zdigits2 m = d.
Proof.
  intros Hm Hpos. destruct m as [|p|p]; try lia.
  simpl. by apply digits2_pos_unique.
Qed.

Lemma fexp_53 e : -1021 ≤ e → fexp 53 1024 e = e - 53.
Proof. unfold fexp, emin. lia. Qed.

Lemma shr_fexp_fit m e :
  2 ^ 52 ≤ m < 2 ^ 53 → -1074 ≤ e →
  shr_fexp 53 1024 m e loc_Exact = (Build_shr_record m false false, e).
Proof.
  intros Hm He. unfold shr_fexp.
  rewrite (Zdigits2_unique m 53) by (done || lia).
  rewrite fexp_53 by lia.
  replace (53 + e - 53 - e) with 0 by lia. reflexivity.
Qed.

Lemma shr_fexp_carry m e :
  2 ^ 52 ≤ m < 2 ^ 53 → -1075 ≤ e →
  shr_fexp 53 1024 (2 * m) e loc_Exact = (Build_shr_record m false false, e + 1).
Proof.
  intros Hm He. unfold shr_fexp.
  rewrite (Zdigits2_unique (2 * m) 54) by (change (2 ^ (54 - 1)) with (2 * 2 ^ 52);
    change (2 ^ 54) with (2 * 2 ^ 53); lia).
  rewrite fexp_53 by lia.
  replace (54 + e - 53 - e) with 1 by lia.
  cbn [shr_record_of_loc]. rewrite shr_exact by lia.
  f_equal. unfold shifted. change (2 ^ 1) with 2.
  rewrite (Z.mul_comm 2 m), Z.div_mul, Z.mod_mul by lia. reflexivity.
Qed.

Lemma shr_fexp_round m :
  2 ^ 53 ≤ m →
  shr_fexp 53 1024 m 0 loc_Exact = (shifted m (Zdigits2 m - 53), Zdigits2 m - 53).
Proof.
  intros Hm. unfold shr_fexp.
  assert (53 < Zdigits2 m).
  { destruct m as [|p|p]; try lia. simpl.
    pose proof (digits2_pos_bounds p) as [_ Hhi].
    destruct (Z.ltb_spec 53 (Z.pos (digits2_pos p))) as [|Hd]; [done|].
    assert (2 ^ Z.pos (digits2_pos p) ≤ 2 ^ 53) by (apply Z.pow_le_mono_r; lia).
    lia. }
  rewrite fexp_53 by lia. cbn [shr_record_of_loc].
  rewrite shr_exact by lia.
  f_equal; [f_equal|]; lia.
Qed.

Lemma binary_round_aux_fit s m e :
  2 ^ 52 ≤ Z.pos m < 2 ^ 53 → -1074 ≤ e ≤ 971 →
  binary_round_aux 53 1024 s (Z.pos m) e loc_Exact = S754_finite s m e.
Proof.
  intros Hm He. unfold binary_round_aux.
  rewrite shr_fexp_fit by (done || lia).
  cbn [shr_m loc_of_shr_record round_nearest_even].
  rewrite shr_fexp_fit by (done || lia).
  cbn [shr_m]. destruct (Z.leb_spec e (1024 - 53)); [done|lia].
Qed.

Lemma binary_round_aux_carry s m e :
  2 ^ 52 ≤ Z.pos m < 2 ^ 53 → -1075 ≤ e ≤ 970 →
  binary_round_aux 53 1024 s (Z.pos m~0) e loc_Exact = S754_finite s m (e + 1).
Proof.
  intros Hm He. unfold binary_round_aux.
  change (Z.pos m~0) with (2 * Z.pos m).
  rewrite shr_fexp_carry by (done || lia).
  cbn [shr_m loc_of_shr_record round_nearest_even].
  rewrite shr_fexp_fit by (done || lia).
  cbn [shr_m]. destruct (Z.leb_spec (e + 1) (1024 - 53)); [done|lia].
Qed.

Lemma log2_digits p : Z.log2 (Z.pos p) + 1 = Z.pos (digits2_pos p).
Proof.
  symmetry. apply digits2_pos_unique.
  pose proof (Z.log2_spec (Z.pos p) ltac:(lia)) as Hl.
  replace (Z.log2 (Z.pos p) + 1 - 1) with (Z.log2 (Z.pos p)) by lia.
  replace (Z.log2 (Z.pos p) + 1) with (Z.succ (Z.log2 (Z.pos p))) by lia.
  done.
Qed.

(** The conversion of a non-zero integer of at most 64 bits: a 53-bit
    mantissa whose value is the integer rounded to 53 significant bits. *)
Lemma binary_round_int s p :
  Z.pos p < 2 ^ 64 →
  ∃ m e,
    binary_round 53 1024 s p 0 = S754_finite s m e ∧
    -52 ≤ e ≤ 12 ∧
    2 ^ 52 ≤ Z.pos m < 2 ^ 53 ∧
    Z.pos m * 2 ^ (e + 52) = round53 (Z.pos p) * 2 ^ 52.
Proof.
  intros Hp. unfold binary_round, round53. rewrite log2_digits.
  pose proof (digits2_pos_bounds p) as [Hlo Hhi].
  set (d := Z.pos (digits2_pos p)) in *.
  assert (Hd : 1 ≤ d ≤ 64).
  { split; [unfold d; lia|].
    destruct (Z.leb_spec d 64) as [|Hd]; [done|].
    assert (2 ^ 64 ≤ 2 ^ (d - 1)) by (apply Z.pow_le_mono_r; lia). lia. }
  rewrite fexp_53 by lia. unfold shl_align.
  destruct (Z.leb_spec (d - 53) 0) as [Hle|Hgt].
  - (* the integer has at most 53 bits: it is shifted left, exactly *)
    assert (Hsplit : 2 ^ 52 = 2 ^ (53 - d) * 2 ^ (d - 1)).
    { rewrite <- Z.pow_add_r by lia. f_equal. lia. }
    assert (Hsplit' : 2 ^ 53 = 2 ^ (53 - d) * 2 ^ d).
    { rewrite <- Z.pow_add_r by lia. f_equal. lia. }
    assert (0 < 2 ^ (53 - d)) by (apply Z.pow_pos_nonneg; lia).
    destruct (d + 0 - 53 - 0) as [|q|q] eqn:Hq; [|lia|].
    + rewrite binary_round_aux_fit by (replace d with 53 in * by lia; lia).
      exists p, 0. split_and!; try done; try lia.
      * replace d with 53 in Hlo by lia. done.
      * replace d with 53 in Hhi by lia. done.
    + assert (Hmz : Z.pos (Pos.iter xO p q) = Z.pos p * 2 ^ (53 - d)).
      { rewrite pos_iter_xO. f_equal. f_equal. lia. }
      rewrite binary_round_aux_fit by (rewrite ?Hmz; nia).
      exists (Pos.iter xO p q), (d + 0 - 53).
      split_and!; try done; try lia; try nia.
      rewrite Hmz, <- Z.mul_assoc, <- Z.pow_add_r by lia.
      f_equal. f_equal. lia.
  - (* more than 53 bits: the low bits are rounded away *)
    destruct (d + 0 - 53 - 0) as [|q|q] eqn:Hq; [lia| |lia].
    assert (Hk : Zdigits2 (Z.pos p) - 53 = d - 53) by reflexivity.
    assert (Hpow : 0 < 2 ^ (d - 53)) by (apply Z.pow_pos_nonneg; lia).
    assert (Hsplit : 2 ^ (d - 1) = 2 ^ 52 * 2 ^ (d - 53)).
    { rewrite <- Z.pow_add_r by lia. f_equal. lia. }
    assert (Hsplit' : 2 ^ d = 2 ^ 53 * 2 ^ (d - 53)).
    { rewrite <- Z.pow_add_r by lia. f_equal. lia. }
    assert (H53 : 2 ^ 53 ≤ Z.pos p).
    { assert (2 ^ 53 ≤ 2 ^ (d - 1)) by (apply Z.pow_le_mono_r; lia). lia. }
    unfold binary_round_aux.
    rewrite shr_fexp_round, Hk, round_shifted by (done || lia).
    pose proof (roundHalfEven_nearest (Z.pos p) (2 ^ (d - 53)) Hpow) as Hnear.
    set (m1 := roundHalfEven (Z.pos p) (2 ^ (d - 53))) in *.
    assert (Hm1 : 2 ^ 52 ≤ m1 ≤ 2 ^ 53).
    { change (2 ^ 53) with (2 * 2 ^ 52) in *. split.
      - assert (2 * 2 ^ 52 - 1 ≤ 2 * m1) by nia. lia.
      - assert (2 * m1 ≤ 2 * (2 * 2 ^ 52) + 1) by nia. lia. }
    destruct (Z.eq_dec m1 (2 ^ 53)) as [Heq|Hne].
    + rewrite Heq. change (2 ^ 53) with (2 * 2 ^ 52).
      rewrite shr_fexp_carry by lia. cbn [shr_m].
      change (2 ^ 52) with (Z.pos 4503599627370496).
      destruct (Z.leb_spec (d - 53 + 1) (1024 - 53)); [|lia].
      exists 4503599627370496%positive, (d - 53 + 1).
      split_and!; try done; try lia.
      replace (d - 53 + 1 + 52) with (1 + (d - 53) + 52) by lia.
      rewrite !Z.pow_add_r by lia. change (2 ^ 1) with 2. lia.
    + rewrite shr_fexp_fit by lia. cbn [shr_m].
      destruct m1 as [|m|m] eqn:Em; try lia.
      destruct (Z.leb_spec (d - 53) (1024 - 53)); [|lia].
      exists m, (d - 53). split_and!; try done; try lia.
      rewrite Z.pow_add_r by lia. lia.
Qed.

(** **** Division by [1024^3] *)

Lemma float64_of_GiB :
  float64_of_int (1024 * 1024 * 1024) = S754_finite false 4503599627370496 (-22).
Proof. vm_compute. reflexivity. Qed.

Lemma div_eucl_exact a b q : 0 < b → a = b * q → Z.div_eucl a b = (q, 0).
Proof.
  intros Hb ->.
  assert (Hpair : Z.div_eucl (b * q) b = ((b * q) / b, (b * q) mod b)).
  { unfold Z.div, Z.modulo. by destruct (Z.div_eucl (b * q) b). }
  rewrite Hpair, (Z.mul_comm b q), Z.div_mul, Z.mod_mul by lia. reflexivity.
Qed.

(** Dividing a 53-bit float by [2^30] lowers its exponent by 30. *)
Lemma SFdiv_GiB s m e :
  2 ^ 52 ≤ Z.pos m < 2 ^ 53 → -52 ≤ e ≤ 12 →
  SFdiv 53 1024 (S754_finite s m e) (S754_finite false 4503599627370496 (-22)) =
  S754_finite s m (e - 30).
Proof.
  intros Hm He. unfold SFdiv, SFdiv_core_binary.
  rewrite (Zdigits2_unique (Z.pos m) 53) by (done || lia).
  rewrite (Zdigits2_unique (Z.pos 4503599627370496) 53) by (vm_compute; split; congruence || done).
  rewrite fexp_53 by lia.
  replace (Z.min (53 + e - (53 + -22) - 53) (e - -22)) with (e - 31) by lia.
  replace (e - -22 - (e - 31)) with 53 by lia.
  cbv beta iota zeta.
  rewrite Z.shiftl_mul_pow2 by lia.
  rewrite (div_eucl_exact _ _ (Z.pos m~0)) by lia.
  change (new_location (Z.pos 4503599627370496) 0) with loc_Exact.
  rewrite xorb_false_r, binary_round_aux_carry by (done || lia).
  f_equal. lia.
Qed.

(** **** The two decimals *)

Lemma roundHalfEven_scale c num den :
  0 < c → 0 < den → roundHalfEven (c * num) (c * den) = roundHalfEven num den.
Proof.
  intros Hc Hden. unfold roundHalfEven.
  rewrite Z.div_mul_cancel_l, Z.mul_mod_distr_l by lia.
  repeat match goal with
    | |- context [?a <? ?b] => destruct (Z.ltb_spec a b)
    end; try reflexivity; nia.
Qed.

Lemma round53_small a : 0 ≤ a ≤ 2 ^ 53 → round53 a = a.
Proof.
  intros Ha. unfold round53.
  destruct (Z.leb_spec (Z.log2 a + 1 - 53) 0) as [|Hk]; [done|].
  destruct (Z.eq_dec a (2 ^ 53)) as [->|]; [vm_compute; reflexivity|].
  destruct (Z.eq_dec a 0) as [->|]; [done|].
  assert (Z.log2 a < 53) by (apply Z.log2_lt_pow2; lia). lia.
Qed.

Lemma formatFixed2_sizeGB n :
  - 2 ^ 63 ≤ n < 2 ^ 63 →
  formatFixed2 (sizeGB n) =
  fixed2 (n <? 0) (roundHalfEven (round53 (Z.abs n) * 100) (1024 * 1024 * 1024)).
Proof.
  intros Hn. unfold sizeGB, float64_div. rewrite float64_of_GiB.
  unfold float64_of_int, binary_normalize.
  destruct n as [|p|p]; [vm_compute; reflexivity| |].
  all: match goal with |- context [binary_round _ _ ?s _ _] =>
         destruct (binary_round_int s p ltac:(lia)) as (m & e & -> & He & Hm & Hval)
       end.
  all: rewrite SFdiv_GiB by done; unfold formatFixed2.
  all: destruct (Z.leb_spec 0 (e - 30)); [lia|].
  all: cbn [Z.abs Z.ltb Z.compare]; f_equal.
  all: rewrite <- (roundHalfEven_scale (2 ^ (e + 52)) (Z.pos m * 100))
         by (try apply Z.pow_pos_nonneg; lia).
  all: rewrite <- (roundHalfEven_scale (2 ^ 52) (round53 (Z.pos p) * 100))
         by lia.
  all: f_equal; [lia|].
  all: rewrite <- Z.pow_add_r by lia.
  all: replace (e + 52 + - (e - 30)) with 82 by lia; reflexivity.
Qed.

(** C9.  The storage cell of a row is [float64(TotalSize) / 1024^3] printed
    with two decimals followed by " GB".  For every [int64] total the
    hundredths printed are [round53 |TotalSize| * 100 / 1024^3] rounded to
    the nearest integer, halves to the even one, with a minus sign for a
    negative total.  Up to [2^53] bytes [round53] changes nothing, so the
    cell is a multiple of 0.01 nearest to the exact [TotalSize / 1024^3];
    beyond, the total is first rounded to 53 significant bits.  1073741824
    bytes print as "1.00 GB" and 0 bytes as "0.00 GB". *)
Theorem rowText_storage (stat : SeriesStat) :
  let bytes := Z.abs (TotalSize stat) in
  let hundredths := roundHalfEven (round53 bytes * 100) (1024 * 1024 * 1024) in
  - 2 ^ 63 ≤ TotalSize stat < 2 ^ 63 →
  rowText stat =
    stTitle stat +:+ tab +:+ pretty (Count stat) +:+ tab +:+
    fixed2 (TotalSize stat <? 0) hundredths +:+ " GB" +:+ tab ∧
  (bytes ≤ 2 ^ 53 →
   round53 bytes = bytes ∧
   Z.abs (2 * (hundredths * (1024 * 1024 * 1024) - 100 * bytes))
     ≤ 1024 * 1024 * 1024) ∧
  rowText (mkSeriesStat (stTitle stat) (Count stat) 1073741824 (EpisodesURLs stat)) =
    stTitle stat +:+ tab +:+ pretty (Count stat) +:+ tab +:+ "1.00 GB" +:+ tab ∧
  rowText (mkSeriesStat (stTitle stat) (Count stat) 0 (EpisodesURLs stat)) =
    stTitle stat +:+ tab +:+ pretty (Count stat) +:+ tab +:+ "0.00 GB" +:+ tab.
Proof.
  intros bytes hundredths Hrange. split_and!.
  - unfold rowText. by rewrite formatFixed2_sizeGB.
  - intros Hsmall.
    assert (Hexact : round53 bytes = bytes)
      by (apply round53_small; unfold bytes; lia).
    split; [exact Hexact|].
    pose proof (roundHalfEven_nearest (round53 bytes * 100) (1024 * 1024 * 1024)
                  ltac:(lia)) as Hnear.
    fold hundredths in Hnear. rewrite Hexact in Hnear. lia.
  - unfold rowText. cbn [stTitle Count TotalSize].
    by rewrite sizeGB_one_GiB.
  - unfold rowText. cbn [stTitle Count TotalSize].
    by rewrite sizeGB_zero.
Qed.

Lemma rowText_storage_witness :
  rowText (mkSeriesStat "Nova" 3 1079110534 []) =
    "Nova" +:+ tab +:+ "3" +:+ tab +:+ "1.01 GB" +:+ tab ∧
  rowText (mkSeriesStat "Nova" 3 (-1079110534) []) =
    "Nova" +:+ tab +:+ "3" +:+ tab +:+ "-1.01 GB" +:+ tab.
Proof.
  split.
  - destruct (rowText_storage (mkSeriesStat "Nova" 3 1079110534 [])
                ltac:(cbn; lia)) as [Hrow _].
    etrans; [exact Hrow|]. vm_compute. reflexivity.
  - destruct (rowText_storage (mkSeriesStat "Nova" 3 (-1079110534) [])
                ltac:(cbn; lia)) as [Hrow _].
    etrans; [exact Hrow|]. vm_compute. reflexivity.
Defined.

(** C9 as stated fails beyond [2^53] bytes, where [float64] no longer holds
    every integer: 9007199270847119 bytes divided by [1024^3] lie strictly
    between 8388608.01 and 8388608.015, so that both the nearest and the
    truncated two decimals are 8388608.01; the conversion rounds the total
    to 9007199270847120 and the row shows 8388608.02 GB. *)
Lemma rowText_storage_inexact :
  rowText (mkSeriesStat "Nova" 1 9007199270847119 []) =
    "Nova" +:+ tab +:+ "1" +:+ tab +:+ "8388608.02 GB" +:+ tab ∧
  round53 9007199270847119 = 9007199270847120 ∧
  838860801 * (1024 * 1024 * 1024) < 100 * 9007199270847119 ∧
  2 * (100 * 9007199270847119) < (838860801 + 838860802) * (1024 * 1024 * 1024).
Proof.
  split_and!; [vm_compute; reflexivity|vm_compute; reflexivity|lia|lia].
Qed.

(** ** The [list] command *)

(** The loop over the series returns whatever [aggregateStats] reports: the
    errors are dropped, the whole map is copied, the output is untouched and
    every exchange is one of aggregation. *)
Lemma aggregateLoop_spec W oneMap entries s :
  ∃ evs h',
    aggregateLoop W oneMap entries s =
      (Done (foldl (λ m kp, <[kp.1 := kp.2]> m) oneMap entries),
       mkState (trace s ++ evs) (stdout s) h') ∧
    Forall aggExchange evs ∧
    length h' = length (heap s).
Proof.
  revert oneMap s. induction entries as [|[key stat] rest IH]; intros oneMap s.
  - exists [], (heap s). simpl. mprims. rewrite app_nil_r. by destruct s.
  - simpl. destruct (aggregateStats_spec W stat s) as (o & evs1 & Hrun1 & Hall1 & _).
    rewrite bind_eq, Hrun1.
    match goal with |- context [aggregateLoop W ?om rest ?s1] =>
      destruct (IH om s1) as (evs & h' & Hrun & Hall & Hlen) end.
    cbn [trace stdout heap] in Hrun, Hlen. rewrite Hrun.
    exists (evs1 ++ evs), h'. split_and!.
    + by rewrite <- app_assoc.
    + by apply Forall_app.
    + by rewrite Hlen, length_alter.
Qed.

(** Once the recordings are fetched, [listRecordings] prints the table; no
    outcome of aggregation can prevent it or add a line to the output. *)
Lemma listRecordings_prints_table W url s recs s1 :
  fetchRecordings W url s = (Done (inr recs), s1) →
  ∃ evs oneMap h',
    listRecordings W url s =
      (Done tt, mkState (trace s1 ++ evs)
                  (stdout s1 ++ tableLines W oneMap h') h') ∧
    Forall aggExchange evs.
Proof.
  intros Hfetch. unfold listRecordings. rewrite bind_eq, Hfetch.
  destruct (collectRecordings_spec recs s1) as (m & h1 & Hrun1 & _ & _).
  rewrite bind_eq, Hrun1, bind_eq.
  match goal with |- context [aggregateLoop W ∅ ?es ?s2] =>
    destruct (aggregateLoop_spec W ∅ es s2) as (evs & h' & Hrun & Hall & _) end.
  cbn [trace stdout heap] in Hrun. rewrite Hrun, printSeriesMap_spec.
  eexists evs, _, h'. split; [reflexivity|done].
Qed.

(** C1 (the code departs from it).  On a device whose second episode list
    of series A answers 500, [aggregateStats] does return an error for that
    series, but the [list] command drops it: the run goes on to the next
    series, prints no "Error:" line and prints the table, in which series A
    shows the partial totals accumulated before the failure. *)
Theorem listCommand_ignores_aggregation_failure :
  (∃ s1, aggregateStats brokenWorld 0%nat (grouped [recA1; recB; recA2]) =
           (Done (Some "http://10.0.0.5/episodes?A2 returned status 500"), s1)) ∧
  ∃ s', listCommand brokenWorld initState = (Done tt, s') ∧
        trace s' !! 4%nat =
          Some (episodesRequest "http://10.0.0.5/episodes?A2", status 500) ∧
        stdout s' =
          [ banner; headerLine; separatorLine;
            "Show B" +:+ tab +:+ "1" +:+ tab +:+ "0.50 GB" +:+ tab;
            "Show A" +:+ tab +:+ "1" +:+ tab +:+ "1.00 GB" +:+ tab;
            ""; "Total Series Found: 2" ].
Proof.
  split.
  - eexists. vm_compute. reflexivity.
  - eexists. split; [vm_compute; reflexivity|].
    split; vm_compute; reflexivity.
Qed.

(** C8 (the code departs from it).  [fetchRecordings] goes through the
    package-level [http.Get], that is the default client, whose timeout is
    zero: its request carries no timeout.  In a run of the [list] command on
    the scenario device the second of the eight requests is that one; the
    seven others carry the five seconds. *)
Theorem fetchRecordings_without_timeout :
  (∀ W url s, ∃ r,
     fetchRecordings W url s =
       (Done r, addEvent (exchange W s (mkRequest GET url 0)) s)) ∧
  (λ ev, (reqMethod ev.1, reqTimeout ev.1)) <$>
    trace (listCommand scenarioWorld initState).2 =
  [ (GET, 5 * time_Second); (GET, 0);
    (GET, 5 * time_Second); (HEAD, 5 * time_Second);
    (GET, 5 * time_Second); (HEAD, 5 * time_Second);
    (GET, 5 * time_Second); (HEAD, 5 * time_Second) ].
Proof.
  split.
  - intros W url s. apply fetchRecordings_state.
  - vm_compute. reflexivity.
Qed.

(** ** The [delete-series] command *)

Lemma aggExchange_readOnly evs : Forall aggExchange evs → Forall readOnly evs.
Proof. intros H. eapply Forall_impl; [exact H|]. by intros ev [? _]. Qed.

Lemma matchLoop_spec title recs deleteRecordings s :
  (length deleteRecordings ≤ 1)%nat →
  matchLoop title deleteRecordings recs s =
  match deleteRecordings ++ matching title recs with
  | first :: second :: _ => (Done None, ambiguous title first second s)
  | found => (Done (Some found), s)
  end.
Proof.
  revert deleteRecordings s.
  induction recs as [|rec rest IH]; intros dr s Hlen; simpl.
  - unfold matching. rewrite filter_nil, app_nil_r.
    destruct dr as [|first [|second dr]]; simpl in Hlen; [done|done|lia].
  - unfold matching in *.
    destruct (String.prefix title (Title rec)) eqn:Hp.
    + rewrite filter_cons_True by done.
      destruct dr as [|first [|second dr]]; simpl in Hlen; [| |lia].
      * rewrite IH by (simpl; lia). reflexivity.
      * reflexivity.
    + rewrite filter_cons_False by (rewrite Hp; discriminate).
      by apply IH.
Qed.

(** What [deleteSeries] does once the recordings are fetched, by the number
    of matching titles. *)
Lemma deleteSeriesFound_spec W title recs s :
  match matching title recs with
  | [] =>
    deleteSeriesFound W title recs s =
      (Done tt, addLine ("Nothing matches '" +:+ title +:+ "'") s)
  | [_] =>
    ∃ evs h',
      deleteSeriesFound W title recs s =
        (Done tt, mkState (trace s ++ evs) (stdout s) h') ∧
      Forall aggExchange evs
  | first :: second :: _ =>
    deleteSeriesFound W title recs s = (Done tt, ambiguous title first second s)
  end.
Proof.
  unfold deleteSeriesFound. rewrite bind_eq, matchLoop_spec by (simpl; lia).
  simpl. destruct (matching title recs) as [|first [|second others]].
  - reflexivity.
  - simpl.
    destruct (collectRecordings_spec recs s) as (m & h1 & Hrun1 & _ & _).
    rewrite bind_eq, Hrun1, bind_eq.
    match goal with |- context [aggregateLoop W ∅ ?es ?s2] =>
      destruct (aggregateLoop_spec W ∅ es s2) as (evs & h' & Hrun & Hall & _) end.
    cbn [trace stdout heap] in Hrun. rewrite Hrun.
    exists evs, h'. done.
  - reflexivity.
Qed.

Lemma getStorageUrlOrExit_state W s :
  ∃ o line,
    getStorageUrlOrExit W s =
      (o, mkState (trace s ++ [exchange W (addLine banner s) discoverRequest])
                  (stdout s ++ banner :: line) (heap s)).
Proof.
  destruct (getStorageUrl_state W s) as [r Hr].
  unfold getStorageUrlOrExit. rewrite bind_eq, Hr.
  destruct r as [err|url]; mprims; unfold addEvent, addLine; cbn [trace stdout heap].
  - eexists _, [_]. by rewrite <- app_assoc.
  - by eexists _, [].
Qed.

(** C10.  Whatever the title, the flag and the device, every exchange
    [deleteSeries] performs is a GET or a HEAD.  After discovery and the
    fetch of the recordings it does what [deleteSeriesFound] does: with no
    matching title it prints "Nothing matches ..." and returns; with two or
    more it prints the first two matching titles and returns; with exactly
    one it aggregates the statistics of every series, prints nothing and
    returns, having sent no delete command. *)
Theorem deleteSeries_read_only (W : World) (title : string) (forever : bool)
    (s : State) :
  (∃ o evs lines h',
     deleteSeries W title forever s =
       (o, mkState (trace s ++ evs) (stdout s ++ lines) h') ∧
     Forall readOnly evs) ∧
  (∀ url recs s0 s1,
     getStorageUrlOrExit W s = (Done url, s0) →
     fetchRecordings W url s0 = (Done (inr recs), s1) →
     deleteSeries W title forever s = deleteSeriesFound W title recs s1) ∧
  (∀ recs s1,
     match matching title recs with
     | [] =>
       deleteSeriesFound W title recs s1 =
         (Done tt, addLine ("Nothing matches '" +:+ title +:+ "'") s1)
     | [_] =>
       ∃ evs h',
         deleteSeriesFound W title recs s1 =
           (Done tt, mkState (trace s1 ++ evs) (stdout s1) h') ∧
         Forall readOnly evs
     | first :: second :: _ =>
       deleteSeriesFound W title recs s1 =
         (Done tt, ambiguous title first second s1)
     end).
Proof.
  split_and!.
  - unfold deleteSeries.
    destruct (getStorageUrlOrExit_state W s) as (o & line & Hdisc).
    rewrite bind_eq, Hdisc.
    set (ev0 := exchange W (addLine banner s) discoverRequest).
    assert (Hev0 : readOnly ev0) by by left.
    destruct o as [url|code].
    2:{ eexists _, [ev0], _, _. split; [reflexivity|]. by constructor. }
    cbv beta iota. rewrite bind_eq.
    match goal with |- context [fetchRecordings W url ?s0] =>
      set (sd := s0); destruct (fetchRecordings_state W url sd) as [r Hr] end.
    rewrite Hr.
    set (ev1 := exchange W sd (recordingsRequest url)).
    assert (Hev1 : readOnly ev1) by by left.
    destruct r as [err|recs].
    { mprims. unfold addEvent. subst sd. cbn [trace stdout heap].
      eexists _, [ev0; ev1], (banner :: line ++ [_]), _.
      split; [|by repeat constructor].
      f_equal. by rewrite <- !app_assoc. }
    cbv beta iota.
    pose proof (deleteSeriesFound_spec W title recs (addEvent ev1 sd)) as Hfound.
    destruct (matching title recs) as [|first [|second others]].
    + rewrite Hfound. unfold addLine, addEvent. subst sd. cbn [trace stdout heap].
      eexists _, [ev0; ev1], (banner :: line ++ [_]), _.
      split; [|by repeat constructor].
      f_equal. by rewrite <- !app_assoc.
    + destruct Hfound as (evs & h' & -> & Hall).
      unfold addEvent. subst sd. cbn [trace stdout heap].
      eexists _, (ev0 :: ev1 :: evs), _, _.
      split.
      * f_equal. by rewrite <- !app_assoc.
      * repeat (constructor; [done|]). by apply aggExchange_readOnly.
    + rewrite Hfound. unfold ambiguous, addLine, addEvent. subst sd.
      cbn [trace stdout heap].
      eexists _, [ev0; ev1], (banner :: line ++ [_; _; _]), _.
      split; [|by repeat constructor].
      f_equal. by rewrite <- !app_assoc.
  - intros url recs s0 s1 Hdisc Hfetch.
    unfold deleteSeries. by rewrite bind_eq, Hdisc, bind_eq, Hfetch.
  - intros recs s1.
    pose proof (deleteSeriesFound_spec W title recs s1) as Hfound.
    destruct (matching title recs) as [|first [|second others]]; [done| |done].
    destruct Hfound as (evs & h' & Hrun & Hall).
    exists evs, h'. split; [done|]. by apply aggExchange_readOnly.
Qed.

Lemma deleteSeries_read_only_witness :
  ∃ s', deleteSeries scenarioWorld "Show B" false initState = (Done tt, s') ∧
        stdout s' = [banner] ∧
        (λ ev, reqMethod ev.1) <$> trace s' =
          [GET; GET; GET; HEAD; GET; HEAD; GET; HEAD].
Proof.
  eexists. split.
  - etrans.
    + eapply (proj1 (proj2 (deleteSeries_read_only scenarioWorld "Show B" false
                              initState)));
        vm_compute; reflexivity.
    + vm_compute. reflexivity.
  - split; vm_compute; reflexivity.
Defined.

(** * Further properties *)

(** ** The three fetches *)

(** X1.  [fetchRecordings] performs exactly one exchange, a GET of the given
    URL, and touches neither the output nor the heap.  It returns the
    recordings exactly when the answer has status 200 and a readable body
    that decodes.  A transport failure and a status other than 200 give the
    errors "failed to connect ..." and "received non-200 status code: N";
    with such a status the body is not looked at. *)
Theorem fetchRecordings_result (W : World) (url : string) (s : State) :
  let ans := respond W (trace s) (recordingsRequest url) in
  ∃ r,
    fetchRecordings W url s = (Done r, addEvent (recordingsRequest url, ans) s) ∧
    (∀ recs, r = inr recs ↔ decodes (unmarshalRecordings W) ans recs) ∧
    (∀ e, ans = inl e →
          r = inl ("failed to connect to HDHomeRun DVR engine: " +:+ e)) ∧
    (∀ resp, ans = inr resp → StatusCode resp ≠ 200 →
          r = inl ("received non-200 status code: " +:+ pretty (StatusCode resp))).
Proof.
  intros ans. unfold fetchRecordings, addEvent, recordingsRequest, decodes,
    http_StatusOK in *. mprims. fold ans.
  destruct ans as [e|resp]; cbn.
  { eexists. split; [reflexivity|]. split_and!.
    - intros recs. split; [discriminate|]. by intros (? & ? & [=] & _).
    - by intros ? [= ->].
    - by intros ? [=]. }
  destruct (Z.eqb_spec (StatusCode resp) 200) as [Hst|Hst]; cbn.
  2:{ eexists. split; [reflexivity|]. split_and!.
      - intros recs. split; [discriminate|].
        by intros (? & ? & [= <-] & ? & _).
      - by intros ? [=].
      - by intros ? [= <-] _. }
  destruct (Body resp) as [e|body] eqn:Hb; cbn.
  { eexists. split; [reflexivity|]. split_and!.
    - intros recs. split; [discriminate|].
      intros (? & ? & [= <-] & _ & Hb' & _). congruence.
    - by intros ? [=].
    - by intros ? [= <-] ?. }
  destruct (unmarshalRecordings W body) as [e|recs0] eqn:Hd; cbn.
  - eexists. split; [reflexivity|]. split_and!.
    + intros recs. split; [discriminate|].
      intros (? & ? & [= <-] & _ & Hb' & Hd'). congruence.
    + by intros ? [=].
    + by intros ? [= <-] ?.
  - eexists. split; [reflexivity|]. split_and!.
    + intros recs. split.
      * intros [= <-]. by exists resp, body.
      * intros (? & ? & [= <-] & _ & Hb' & Hd').
        rewrite Hb in Hb'. injection Hb' as <-.
        rewrite Hd in Hd'. by injection Hd' as <-.
    + by intros ? [=].
    + by intros ? [= <-] ?.
Qed.

Lemma fetchRecordings_result_witness :
  fetchRecordings scenarioWorld "http://10.0.0.5:80" initState =
    (Done (inr [recA1; recB; recA2]),
     addEvent (recordingsRequest "http://10.0.0.5:80", okBody "<recordings>")
              initState) ∧
  (fetchRecordings brokenWorld "http://10.0.0.5/episodes?A2" initState).1 =
    Done (inl "received non-200 status code: 500").
Proof.
  split.
  - destruct (fetchRecordings_result scenarioWorld "http://10.0.0.5:80" initState)
      as (r & Hrun & Hok & _).
    rewrite Hrun. f_equal. f_equal. apply Hok.
    eexists _, _. split_and!; vm_compute; reflexivity.
  - destruct (fetchRecordings_result brokenWorld "http://10.0.0.5/episodes?A2"
                initState) as (r & Hrun & _ & _ & Hstatus).
    rewrite Hrun. simpl. f_equal.
    eapply (Hstatus {| StatusCode := 500; Body := inr ""; ContentLength := 0 |});
      vm_compute; [reflexivity|discriminate].
Defined.

(** X2.  [getEpisodes] performs exactly one exchange, a GET of the given
    URL through a client with the five second timeout, and touches neither
    the output nor the heap.  It returns the episode list exactly when the
    answer has status 200 and a readable body that decodes; a transport
    failure and a status other than 200 give errors that name the URL. *)
Theorem getEpisodes_result (W : World) (url : string) (s : State) :
  let ans := respond W (trace s) (episodesRequest url) in
  ∃ r,
    getEpisodes W url s = (Done r, addEvent (episodesRequest url, ans) s) ∧
    (∀ episodes, r = inr episodes ↔ decodes (unmarshalEpisodes W) ans episodes) ∧
    (∀ e, ans = inl e → r = inl ("Failed to fetch " +:+ url +:+ ": " +:+ e)) ∧
    (∀ resp, ans = inr resp → StatusCode resp ≠ 200 →
          r = inl (url +:+ " returned status " +:+ pretty (StatusCode resp))).
Proof.
  intros ans. unfold getEpisodes, addEvent, episodesRequest, timeout5s, decodes,
    http_StatusOK in *. mprims. fold ans.
  destruct ans as [e|resp]; cbn.
  { eexists. split; [reflexivity|]. split_and!.
    - intros eps. split; [discriminate|]. by intros (? & ? & [=] & _).
    - by intros ? [= ->].
    - by intros ? [=]. }
  destruct (Z.eqb_spec (StatusCode resp) 200) as [Hst|Hst]; cbn.
  2:{ eexists. split; [reflexivity|]. split_and!.
      - intros eps. split; [discriminate|].
        by intros (? & ? & [= <-] & ? & _).
      - by intros ? [=].
      - by intros ? [= <-] _. }
  destruct (Body resp) as [e|body] eqn:Hb; cbn.
  { eexists. split; [reflexivity|]. split_and!.
    - intros eps. split; [discriminate|].
      intros (? & ? & [= <-] & _ & Hb' & _). congruence.
    - by intros ? [=].
    - by intros ? [= <-] ?. }
  destruct (unmarshalEpisodes W body) as [e|eps0] eqn:Hd; cbn.
  - eexists. split; [reflexivity|]. split_and!.
    + intros eps. split; [discriminate|].
      intros (? & ? & [= <-] & _ & Hb' & Hd'). congruence.
    + by intros ? [=].
    + by intros ? [= <-] ?.
  - eexists. split; [reflexivity|]. split_and!.
    + intros eps. split.
      * intros [= <-]. by exists resp, body.
      * intros (? & ? & [= <-] & _ & Hb' & Hd').
        rewrite Hb in Hb'. injection Hb' as <-.
        rewrite Hd in Hd'. by injection Hd' as <-.
    + by intros ? [=].
    + by intros ? [= <-] ?.
Qed.

Lemma getEpisodes_result_witness :
  (getEpisodes scenarioWorld "http://10.0.0.5/episodes?B1" initState).1 =
    Done (inr [mkEpisode "http://10.0.0.5/play?b1" "http://10.0.0.5/cmd?b1"]) ∧
  (getEpisodes brokenWorld "http://10.0.0.5/episodes?A2" initState).1 =
    Done (inl "http://10.0.0.5/episodes?A2 returned status 500") ∧
  (getEpisodes downWorld "http://10.0.0.5/episodes?A2" initState).1 =
    Done (inl "Failed to fetch http://10.0.0.5/episodes?A2: no route to host").
Proof.
  split_and!.
  - destruct (getEpisodes_result scenarioWorld "http://10.0.0.5/episodes?B1"
                initState) as (r & Hrun & Hok & _).
    rewrite Hrun. simpl. f_equal. apply Hok.
    eexists _, _. split_and!; vm_compute; reflexivity.
  - destruct (getEpisodes_result brokenWorld "http://10.0.0.5/episodes?A2"
                initState) as (r & Hrun & _ & _ & Hstatus).
    rewrite Hrun. simpl. f_equal.
    eapply (Hstatus {| StatusCode := 500; Body := inr ""; ContentLength := 0 |});
      vm_compute; [reflexivity|discriminate].
  - destruct (getEpisodes_result downWorld "http://10.0.0.5/episodes?A2"
                initState) as (r & Hrun & _ & Hdown & _).
    rewrite Hrun. simpl. f_equal. apply Hdown. vm_compute. reflexivity.
Defined.

(** X3.  [getEpisodeSize] performs exactly one exchange, a HEAD of the play
    URL through a client with the five second timeout.  It returns a size
    exactly when the answer has status 200, and the size is then the
    [ContentLength] of the answer as it stands; the body, readable or not,
    plays no part.  A transport failure and a status other than 200 give
    errors that name the URL. *)
Theorem getEpisodeSize_result (W : World) (playUrl : string) (s : State) :
  let ans := respond W (trace s) (sizeRequest playUrl) in
  ∃ r,
    getEpisodeSize W playUrl s = (Done r, addEvent (sizeRequest playUrl, ans) s) ∧
    (∀ size, r = inr size ↔
             ∃ resp, ans = inr resp ∧ StatusCode resp = 200 ∧
                     ContentLength resp = size) ∧
    (∀ e, ans = inl e →
          r = inl ("Failed to fetch " +:+ playUrl +:+ ": " +:+ e)) ∧
    (∀ resp, ans = inr resp → StatusCode resp ≠ 200 →
          r = inl (playUrl +:+ " returned status " +:+ pretty (StatusCode resp))).
Proof.
  intros ans. unfold getEpisodeSize, addEvent, sizeRequest, timeout5s,
    http_StatusOK in *. mprims. fold ans.
  destruct ans as [e|resp]; cbn.
  { eexists. split; [reflexivity|]. split_and!.
    - intros size. split; [discriminate|]. by intros (? & [=] & _).
    - by intros ? [= ->].
    - by intros ? [=]. }
  destruct (Z.eqb_spec (StatusCode resp) 200) as [Hst|Hst]; cbn.
  - eexists. split; [reflexivity|]. split_and!.
    + intros size. split.
      * intros [= <-]. by exists resp.
      * by intros (? & [= <-] & _ & <-).
    + by intros ? [=].
    + by intros ? [= <-] ?.
  - eexists. split; [reflexivity|]. split_and!.
    + intros size. split; [discriminate|]. by intros (? & [= <-] & ? & _).
    + by intros ? [=].
    + by intros ? [= <-] _.
Qed.

Lemma getEpisodeSize_result_witness :
  (getEpisodeSize unknownLengthWorld "http://10.0.0.5/play?live1" initState).1 =
    Done (inr (-1)) ∧
  (getEpisodeSize downWorld "http://10.0.0.5/play?live1" initState).1 =
    Done (inl "Failed to fetch http://10.0.0.5/play?live1: no route to host").
Proof.
  split.
  - destruct (getEpisodeSize_result unknownLengthWorld "http://10.0.0.5/play?live1"
                initState) as (r & Hrun & Hok & _).
    rewrite Hrun. simpl. f_equal. apply Hok.
    eexists. split_and!; vm_compute; reflexivity.
  - destruct (getEpisodeSize_result downWorld "http://10.0.0.5/play?live1"
                initState) as (r & Hrun & _ & Hdown & _).
    rewrite Hrun. simpl. f_equal. apply Hdown. vm_compute. reflexivity.
Defined.

(** ** Aggregation: order of the requests, first failure, frame *)

Lemma listingsObtained_cons W ev evs :
  listingsObtained W (ev :: evs) =
  match listingObtained W ev with
  | Some episodes => episodes :: listingsObtained W evs
  | None => listingsObtained W evs
  end.
Proof. reflexivity. Qed.

Section AggregationTrace.
Variable W : World.

Lemma episodesLoop_full stat eps s :
  ∃ o evs h',
    episodesLoop W stat eps s =
      (Done o, mkState (trace s ++ evs) (stdout s) h') ∧
    listingsObtained W evs = [] ∧
    match o with
    | None =>
      requestLine <$> evs = (λ episode, (HEAD, PlayURL episode)) <$> eps ∧
      Forall (delivered W) evs
    | Some _ =>
      ∃ evs0 ev, evs = evs0 ++ [ev] ∧ Forall (delivered W) evs0 ∧
                 ¬ delivered W ev
    end.
Proof.
  revert s. induction eps as [|episode rest IH]; intros s.
  - exists None, [], (heap s). simpl. mprims. rewrite app_nil_r.
    split; [by destruct s|]. done.
  - simpl. destruct (getEpisodeSize_spec W (PlayURL episode) s) as (r & Hr & Hsz & Hls).
    rewrite bind_eq, Hr.
    set (ev := exchange W s (sizeRequest (PlayURL episode))) in *.
    assert (Hnone : listingsObtained W [ev] = []).
    { by rewrite listingsObtained_cons, Hls. }
    destruct r as [err|size].
    + exists (Some err), [ev], (heap s). split; [done|]. split; [done|].
      exists [], ev. split; [done|]. split; [constructor|].
      unfold delivered. rewrite Hsz, Hls. by intros [[? [=]]|[? [=]]].
    + mprims. unfold addEvent. cbn [trace stdout heap].
      match goal with |- context [episodesLoop W stat rest ?s1] =>
        destruct (IH s1) as (o & evs & h' & Hrun & Hl & Ho) end.
      cbn [trace stdout heap] in Hrun. rewrite Hrun.
      assert (Hdel : delivered W ev) by (left; rewrite Hsz; eauto).
      exists o, (ev :: evs), h'. split; [by rewrite <- app_assoc|]. split.
      { change (ev :: evs) with ([ev] ++ evs). unfold listingsObtained in *.
        by rewrite omap_app, Hnone, Hl. }
      destruct o as [err|].
      * destruct Ho as (evs0 & ev' & -> & Hall & Hlast).
        exists (ev :: evs0), ev'. split; [done|]. split; [by constructor|done].
      * destruct Ho as [Hreq Hall]. split; [|by constructor].
        rewrite !fmap_cons, Hreq. done.
Qed.

Lemma urlsLoop_full stat urls s :
  ∃ o evs h',
    urlsLoop W stat urls s =
      (Done o, mkState (trace s ++ evs) (stdout s) h') ∧
    match o with
    | None =>
      length (listingsObtained W evs) = length urls ∧
      requestLine <$> evs = plan urls (listingsObtained W evs) ∧
      Forall (delivered W) evs
    | Some _ =>
      ∃ evs0 ev, evs = evs0 ++ [ev] ∧ Forall (delivered W) evs0 ∧
                 ¬ delivered W ev
    end.
Proof.
  revert s. induction urls as [|url rest IH]; intros s.
  - exists None, [], (heap s). simpl. mprims. rewrite app_nil_r.
    split; [by destruct s|]. done.
  - simpl. destruct (getEpisodes_spec W url s) as (r & Hr & Hls & Hsz).
    rewrite bind_eq, Hr.
    set (ev := exchange W s (episodesRequest url)) in *.
    destruct r as [err|episodes].
    + exists (Some err), [ev], (heap s). split; [done|].
      exists [], ev. split; [done|]. split; [constructor|].
      unfold delivered. rewrite Hsz, Hls. by intros [[? [=]]|[? [=]]].
    + assert (Hdel : delivered W ev) by (right; rewrite Hls; eauto).
      assert (Hone : listingsObtained W [ev] = [episodes]).
      { by rewrite listingsObtained_cons, Hls. }
      destruct (episodesLoop_full stat episodes (addEvent ev s))
        as (o1 & evs1 & h1 & Hrun1 & Hl1 & Ho1).
      rewrite bind_eq, Hrun1. cbn [addEvent trace stdout heap].
      destruct o1 as [err|].
      * destruct Ho1 as (evs0 & ev' & -> & Hall & Hlast).
        exists (Some err), (ev :: evs0 ++ [ev']), h1.
        split; [mprims; by rewrite <- app_assoc|].
        exists (ev :: evs0), ev'. split; [done|]. split; [by constructor|done].
      * destruct Ho1 as [Hreq1 Hall1].
        match goal with |- context [urlsLoop W stat rest ?s1] =>
          destruct (IH s1) as (o & evs & h' & Hrun & Ho) end.
        cbn [trace stdout heap] in Hrun. rewrite Hrun.
        exists o, (ev :: evs1 ++ evs), h'.
        split; [by rewrite <- !app_assoc|].
        destruct o as [err|].
        -- destruct Ho as (evs0 & ev' & -> & Hall & Hlast).
           exists (ev :: evs1 ++ evs0), ev'.
           split; [by rewrite app_assoc|].
           split; [|done]. constructor; [done|]. by apply Forall_app.
        -- destruct Ho as (Hlen & Hreq & Hall).
           assert (Hlist : listingsObtained W (ev :: evs1 ++ evs) =
                           episodes :: listingsObtained W evs).
           { change (ev :: evs1 ++ evs) with ([ev] ++ evs1 ++ evs).
             unfold listingsObtained in *.
             by rewrite !omap_app, Hone, Hl1. }
           rewrite Hlist. split; [simpl; by rewrite Hlen|]. split.
           ++ unfold plan in *. simpl.
              rewrite fmap_app, Hreq1, Hreq. done.
           ++ constructor; [done|]. by apply Forall_app.
Qed.

Lemma aggregateStats_full stat s :
  ∃ o evs h',
    aggregateStats W stat s =
      (Done o, mkState (trace s ++ evs) (stdout s) h') ∧
    match o with
    | None =>
      length (listingsObtained W evs) = length (EpisodesURLs (heap s !!! stat)) ∧
      requestLine <$> evs =
        plan (EpisodesURLs (heap s !!! stat)) (listingsObtained W evs) ∧
      Forall (delivered W) evs
    | Some _ =>
      ∃ evs0 ev, evs = evs0 ++ [ev] ∧ Forall (delivered W) evs0 ∧
                 ¬ delivered W ev
    end.
Proof.
  unfold aggregateStats. mprims.
  match goal with |- context [urlsLoop W stat ?urls ?s1] =>
    destruct (urlsLoop_full stat urls s1) as (o & evs & h' & Hrun & Ho) end.
  cbn [trace stdout heap] in Hrun. rewrite Hrun.
  exists o, evs, h'. split; [done|].
  rewrite list_alter_alter_eq, EpisodesURLs_alter in Ho by done. exact Ho.
Qed.

End AggregationTrace.

(** X9.  A successful [aggregateStats] is strictly sequential: its
    requests are, for each URL of the series in turn, the GET of the episode
    list followed by one HEAD per episode of that list, in list order, and
    nothing else. *)
Theorem aggregateStats_request_order (W : World) (stat : ptr) (s s' : State) :
  aggregateStats W stat s = (Done None, s') →
  let evs := newEvents s s' in
  let listings := listingsObtained W evs in
  trace s' = trace s ++ evs ∧
  length listings = length (EpisodesURLs (heap s !!! stat)) ∧
  requestLine <$> evs = plan (EpisodesURLs (heap s !!! stat)) listings.
Proof.
  intros Hrun evs listings.
  destruct (aggregateStats_full W stat s) as (o & evs0 & h' & Hrun0 & Ho).
  rewrite Hrun in Hrun0. injection Hrun0 as <- ->.
  assert (evs = evs0) as ->.
  { subst evs. unfold newEvents. simpl. apply drop_app_length. }
  destruct Ho as (Hlen & Hreq & _). done.
Qed.

Lemma aggregateStats_request_order_witness :
  ∃ s', aggregateStats scenarioWorld 0%nat (grouped [recA1; recB; recA2])
          = (Done None, s') ∧
        requestLine <$> trace s' =
          [ (GET, "http://10.0.0.5/episodes?A1"); (HEAD, "http://10.0.0.5/play?a1");
            (GET, "http://10.0.0.5/episodes?A2"); (HEAD, "http://10.0.0.5/play?a2") ].
Proof.
  eexists. split; [vm_compute; reflexivity|].
  match goal with |- requestLine <$> trace ?s' = _ =>
    assert (Hrun : aggregateStats scenarioWorld 0%nat
                     (grouped [recA1; recB; recA2]) = (Done None, s'))
      by (vm_compute; reflexivity);
    destruct (aggregateStats_request_order scenarioWorld 0%nat _ s' Hrun)
      as (_ & _ & Hreq)
  end.
  etrans; [exact Hreq|]. vm_compute. reflexivity.
Defined.

(** X8.  [aggregateStats] stops at the first failure.  It returns no error
    exactly when every exchange it performed delivered what was asked (an
    episode list or a size); when it returns an error, the exchange that
    failed is the last one it performed and all the earlier ones
    delivered. *)
Theorem aggregateStats_first_failure (W : World) (stat : ptr) (s : State) :
  ∃ o s',
    aggregateStats W stat s = (Done o, s') ∧
    let evs := newEvents s s' in
    trace s' = trace s ++ evs ∧
    (o = None ↔ Forall (delivered W) evs) ∧
    (∀ err, o = Some err →
       ∃ evs0 ev, evs = evs0 ++ [ev] ∧ Forall (delivered W) evs0 ∧
                  ¬ delivered W ev).
Proof.
  destruct (aggregateStats_full W stat s) as (o & evs & h' & Hrun & Ho).
  eexists o, _. split; [exact Hrun|].
  unfold newEvents. cbn [trace]. rewrite drop_app_length.
  cbv zeta. split; [done|]. destruct o as [err|].
  - destruct Ho as (evs0 & ev & -> & Hall & Hlast). split.
    + split; [discriminate|]. intros Hall'.
      apply Forall_app in Hall' as [_ Hev]. by inversion Hev.
    + intros _ _. by exists evs0, ev.
  - destruct Ho as (_ & _ & Hall). split; [done|]. by intros ? [=].
Qed.

Lemma aggregateStats_first_failure_witness :
  ∃ err s',
    aggregateStats brokenWorld 0%nat (grouped [recA1; recB; recA2])
      = (Done (Some err), s') ∧
    last (trace s') =
      Some (episodesRequest "http://10.0.0.5/episodes?A2", status 500).
Proof.
  eexists _, _. split; [vm_compute; reflexivity|].
  match goal with |- last (trace ?s1) = _ =>
    destruct (aggregateStats_first_failure brokenWorld 0%nat
                (grouped [recA1; recB; recA2])) as (o & s' & Hrun & H);
    assert (Hrun0 : aggregateStats brokenWorld 0%nat
                      (grouped [recA1; recB; recA2])
                    = (Done (Some "http://10.0.0.5/episodes?A2 returned status 500"), s1))
      by (vm_compute; reflexivity);
    rewrite Hrun0 in Hrun; injection Hrun as <- <-
  end.
  cbv zeta in H. destruct H as (_ & _ & Hlast).
  destruct (Hlast _ eq_refl) as (evs0 & ev & _ & _ & _).
  vm_compute. reflexivity.
Defined.

(** X7.  Whatever its outcome, [aggregateStats] changes nothing but the two
    counters of the series it is given: the output, the number of objects,
    every other object, and the title and URL list of the series itself are
    as before; the trace only grows. *)
Theorem aggregateStats_frame (W : World) (stat : ptr) (s : State) :
  ∃ o s',
    aggregateStats W stat s = (Done o, s') ∧
    stdout s' = stdout s ∧
    length (heap s') = length (heap s) ∧
    (∀ other, other ≠ stat → heap s' !! other = heap s !! other) ∧
    stTitle (heap s' !!! stat) = stTitle (heap s !!! stat) ∧
    EpisodesURLs (heap s' !!! stat) = EpisodesURLs (heap s !!! stat) ∧
    trace s `prefix_of` trace s'.
Proof.
  destruct (aggregateStats_spec W stat s) as (o & evs & Hrun & _ & _).
  eexists o, _. split; [exact Hrun|]. cbn [trace stdout heap].
  split; [done|]. split; [apply length_alter|]. split.
  { intros other Hne. by apply list_lookup_alter_ne. }
  split.
  - rewrite !list_lookup_total_alt, list_lookup_alter_eq.
    destruct (heap s !! stat); simpl; [|done]. by rewrite addEpisodes_reset.
  - split; [|by apply prefix_app_r].
    apply EpisodesURLs_alter. intros x. by rewrite addEpisodes_reset.
Qed.

Lemma aggregateStats_frame_witness :
  ∃ s', aggregateStats scenarioWorld 0%nat (grouped [recA1; recB; recA2])
          = (Done None, s') ∧
        heap s' !! 1%nat = heap (grouped [recA1; recB; recA2]) !! 1%nat.
Proof.
  eexists. split; [vm_compute; reflexivity|].
  match goal with |- heap ?s1 !! _ = _ =>
    destruct (aggregateStats_frame scenarioWorld 0%nat
                (grouped [recA1; recB; recA2])) as (o & s' & Hrun & _ & _ & H & _);
    assert (Hrun0 : aggregateStats scenarioWorld 0%nat
                      (grouped [recA1; recB; recA2]) = (Done None, s1))
      by (vm_compute; reflexivity);
    rewrite Hrun0 in Hrun; injection Hrun as <- <-
  end.
  apply H. discriminate.
Defined.

(** ** Grouping: allocation *)

Lemma collectStep_fresh base m rec s :
  freshOver base (heap s) m →
  ∃ m' h',
    collectStep m rec s = (Done m', mkState (trace s) (stdout s) h') ∧
    freshOver base h' m'.
Proof.
  intros (ext & Hh & Hlen & Hb). unfold collectStep. mprims.
  destruct (m !! SeriesID rec) as [p|] eqn:Hm; cbn [trace stdout heap].
  - eexists _, _. split; [reflexivity|].
    pose proof (Hb _ _ Hm) as Hp.
    eexists. split_and!.
    + rewrite Hh. rewrite !alter_app_r_alt by lia. reflexivity.
    + by rewrite !length_alter.
    + intros k q Hk. rewrite !length_alter. eauto.
  - eexists _, _. split; [reflexivity|].
    eexists. split_and!.
    + rewrite Hh, <- app_assoc.
      rewrite !alter_app_r_alt by (rewrite length_app; lia). reflexivity.
    + rewrite length_app, !length_alter, map_size_insert_None by done.
      simpl. lia.
    + intros k q. rewrite !length_alter, length_app. simpl.
      rewrite lookup_insert. case_decide.
      * intros [= <-]. rewrite Hh, length_app. lia.
      * intros Hk. apply Hb in Hk. lia.
Qed.

Lemma collectLoop_fresh base recs m s :
  freshOver base (heap s) m →
  ∃ m' h',
    collectLoop m recs s = (Done m', mkState (trace s) (stdout s) h') ∧
    freshOver base h' m'.
Proof.
  revert m s. induction recs as [|rec rest IH]; intros m s Hf.
  - exists m, (heap s). simpl. mprims. by destruct s.
  - simpl. destruct (collectStep_fresh base m rec s Hf) as (m1 & h1 & Hrun & Hf1).
    rewrite bind_eq, Hrun.
    destruct (IH m1 (mkState (trace s) (stdout s) h1) Hf1) as (m' & h' & Hrun' & Hf').
    exists m', h'. cbn [trace stdout heap] in *. by rewrite Hrun'.
Qed.

(** The objects behind the map after grouping, by series identity. *)
Lemma collectRecordings_lookup recs s :
  ∃ m h',
    collectRecordings recs s = (Done m, mkState (trace s) (stdout s) h') ∧
    wfMap h' m ∧
    ∀ sid, (λ p, h' !!! p) <$> m !! sid =
           match ofSeries sid recs with
           | [] => None
           | first :: others =>
             Some (addRecordings (first :: others) (newSeriesStat (Title first)))
           end.
Proof.
  destruct (collectRecordings_spec recs s) as (m & h' & Hrun & Hwf & Hview).
  exists m, h'. split; [done|]. split; [done|]. intros sid.
  rewrite <- view_lookup, Hview, foldl_groupStep_lookup, lookup_empty. done.
Qed.

Lemma ofSeries_nil_iff sid recs :
  ofSeries sid recs = [] ↔ sid ∉ SeriesID <$> recs.
Proof.
  split.
  - intros Hnil Hin. destruct (ofSeries_nonempty sid recs Hin) as (? & ? & Hof).
    congruence.
  - intros Hnot. destruct (ofSeries sid recs) as [|first others] eqn:Hof; [done|].
    exfalso. apply Hnot.
    assert (first ∈ ofSeries sid recs) as Hin by (rewrite Hof; left).
    apply list_elem_of_filter in Hin as [<- Hin]. by apply list_elem_of_fmap_2.
Qed.

(** The keys of the map are the distinct series identities of the input. *)
Lemma collectRecordings_keys recs m (h' : list SeriesStat) :
  (∀ sid, (λ p, h' !!! p) <$> m !! sid =
          match ofSeries sid recs with
          | [] => None
          | first :: others =>
            Some (addRecordings (first :: others) (newSeriesStat (Title first)))
          end) →
  (map_to_list m).*1 ≡ₚ seriesIDs recs.
Proof.
  intros Hlook. apply NoDup_Permutation.
  - apply NoDup_fst_map_to_list.
  - apply NoDup_remove_dups.
  - intros sid. unfold seriesIDs. rewrite elem_of_remove_dups.
    specialize (Hlook sid). split.
    + intros ([k p] & -> & Hin%elem_of_map_to_list)%list_elem_of_fmap.
      simpl in *. rewrite Hin in Hlook.
      destruct (decide (k ∈ SeriesID <$> recs)) as [|Hnot]; [done|].
      apply ofSeries_nil_iff in Hnot. rewrite Hnot in Hlook. discriminate.
    + intros Hin. destruct (ofSeries_nonempty sid recs Hin) as (f & o & Hof).
      rewrite Hof in Hlook. destruct (m !! sid) as [p|] eqn:Hm; [|discriminate].
      apply list_elem_of_fmap. exists (sid, p). split; [done|].
      by apply elem_of_map_to_list.
Qed.

(** X10.  [collectRecordings] performs no exchange and writes nothing.  It
    leaves every object allocated before the call as it was and appends
    exactly one new object per distinct series identity of the input; the
    pointers it returns all refer to these new objects, so nothing it
    returns aliases an object of an earlier call. *)
Theorem collectRecordings_allocation (recs : list Recording) (s : State) :
  ∃ m s' fresh,
    collectRecordings recs s = (Done m, s') ∧
    trace s' = trace s ∧ stdout s' = stdout s ∧
    heap s' = heap s ++ fresh ∧
    length fresh = length (seriesIDs recs) ∧
    size m = length (seriesIDs recs) ∧
    ∀ k p, m !! k = Some p → (length (heap s) ≤ p < length (heap s'))%nat.
Proof.
  destruct (collectLoop_fresh (heap s) recs ∅ s) as (m & h' & Hrun & Hf).
  { exists []. rewrite app_nil_r, map_size_empty. split_and!; [done|done|].
    intros k p. by rewrite lookup_empty. }
  destruct (collectRecordings_lookup recs s) as (m0 & h0 & Hrun0 & _ & Hlook).
  unfold collectRecordings in Hrun0. rewrite Hrun in Hrun0.
  injection Hrun0 as <- <-.
  destruct Hf as (fresh & Hh & Hlen & Hb).
  assert (Hsize : size m = length (seriesIDs recs)).
  { rewrite <- length_map_to_list, <- (length_fmap fst).
    by rewrite (collectRecordings_keys recs m h' Hlook). }
  eexists m, _, fresh. split; [exact Hrun|]. cbn [trace stdout heap].
  split_and!; try done. by rewrite Hlen.
Qed.

Lemma collectRecordings_allocation_witness :
  ∃ m s',
    collectRecordings [recA1; recB; recA2]
      (mkState [] [] [newSeriesStat "earlier"]) = (Done m, s') ∧
    heap s' !! 0%nat = Some (newSeriesStat "earlier") ∧
    length (heap s') = 3%nat ∧
    m !! "A" = Some 1%nat.
Proof.
  destruct (collectRecordings_allocation [recA1; recB; recA2]
              (mkState [] [] [newSeriesStat "earlier"]))
    as (m & s' & fresh & Hrun & _ & _ & Hheap & Hlen & _ & Hptr).
  exists m, s'. split; [exact Hrun|].
  assert (Hrun0 : ∃ h, collectRecordings [recA1; recB; recA2]
                    (mkState [] [] [newSeriesStat "earlier"])
                  = (Done {[ "A" := 1%nat; "B" := 2%nat ]}, mkState [] [] h)).
  { eexists. vm_compute. reflexivity. }
  destruct Hrun0 as [h Hrun0]. rewrite Hrun0 in Hrun. injection Hrun as <- <-.
  cbn [heap] in *. split_and!.
  - rewrite Hheap. reflexivity.
  - rewrite Hheap, length_app, Hlen. vm_compute. reflexivity.
  - vm_compute. reflexivity.
Defined.

(** ** The [list] command, end to end *)

Section ListRecordings.
Variable W : World.

Lemma fetchRecordings_ok url s recs :
  decodes (unmarshalRecordings W) (respond W (trace s) (recordingsRequest url)) recs →
  fetchRecordings W url s =
    (Done (inr recs),
     addEvent (recordingsRequest url, respond W (trace s) (recordingsRequest url)) s).
Proof.
  intros (resp & body & Hans & Hst & Hb & Hd).
  unfold fetchRecordings, addEvent, recordingsRequest, http_StatusOK in *. mprims.
  rewrite Hans. cbn. rewrite Hst. cbn. rewrite Hb, Hd. reflexivity.
Qed.

Lemma fetchRecordings_inr url s recs s1 :
  fetchRecordings W url s = (Done (inr recs), s1) →
  decodes (unmarshalRecordings W) (respond W (trace s) (recordingsRequest url)) recs.
Proof.
  unfold fetchRecordings, decodes, recordingsRequest, http_StatusOK. mprims.
  destruct (respond W (trace s) _) as [e|resp]; cbn; [discriminate|].
  destruct (Z.eqb_spec (StatusCode resp) 200) as [Hst|Hst]; cbn; [|discriminate].
  destruct (Body resp) as [e|body] eqn:Hb; cbn; [discriminate|].
  destruct (unmarshalRecordings W body) as [e|recs0] eqn:Hd; cbn; [discriminate|].
  intros [= <- _]. by exists resp, body.
Qed.

Lemma sameSeries_refl h : sameSeries h h.
Proof. by split. Qed.

Lemma sameSeries_trans h1 h2 h3 :
  sameSeries h1 h2 → sameSeries h2 h3 → sameSeries h1 h3.
Proof.
  intros [Hl1 H1] [Hl2 H2]. split; [congruence|].
  intros p. destruct (H1 p), (H2 p). split; congruence.
Qed.

Lemma sameSeries_aggregated sizes stat h :
  sameSeries h (alter (λ st, addEpisodes sizes (resetStat st)) stat h).
Proof.
  split; [apply length_alter|]. intros p.
  destruct (decide (p = stat)) as [->|Hne].
  - rewrite !list_lookup_total_alt, list_lookup_alter_eq.
    destruct (h !! stat); simpl; [|done]. by rewrite addEpisodes_reset.
  - by rewrite list_lookup_total_alter_ne.
Qed.

Lemma aggregateLoop_frame oneMap entries s :
  ∃ evs h',
    aggregateLoop W oneMap entries s =
      (Done (foldl (λ m kp, <[kp.1 := kp.2]> m) oneMap entries),
       mkState (trace s ++ evs) (stdout s) h') ∧
    sameSeries (heap s) h'.
Proof.
  revert oneMap s. induction entries as [|[key stat] rest IH]; intros oneMap s.
  - exists [], (heap s). simpl. mprims. rewrite app_nil_r.
    split; [by destruct s|apply sameSeries_refl].
  - simpl. destruct (aggregateStats_spec W stat s) as (o & evs1 & Hrun1 & _ & _).
    rewrite bind_eq, Hrun1.
    match goal with |- context [aggregateLoop W ?om rest ?s1] =>
      destruct (IH om s1) as (evs & h' & Hrun & Hsame) end.
    cbn [trace stdout heap] in Hrun, Hsame. rewrite Hrun.
    exists (evs1 ++ evs), h'. split; [by rewrite <- app_assoc|].
    eapply sameSeries_trans; [apply sameSeries_aggregated|exact Hsame].
Qed.

Lemma foldl_insert_lookup (l : list (string * ptr)) (acc : gmap string ptr) k :
  NoDup l.*1 →
  foldl (λ m kp, <[kp.1 := kp.2]> m) acc l !! k =
  match (list_to_map l : gmap string ptr) !! k with
  | Some p => Some p
  | None => acc !! k
  end.
Proof.
  revert acc. induction l as [|[k0 p0] l IH]; intros acc Hnd; simpl.
  - by rewrite lookup_empty.
  - apply NoDup_cons in Hnd as [Hk0 Hnd]. rewrite IH by done. simpl in *.
    destruct (decide (k = k0)) as [->|Hne].
    + rewrite lookup_insert_eq.
      apply (not_elem_of_list_to_map_1 (M := gmap string)) in Hk0.
      rewrite Hk0. by rewrite lookup_insert_eq.
    + rewrite !lookup_insert_ne by done. done.
Qed.

(** Copying a map entry by entry, in whatever order the loop visits it,
    gives the map back. *)
Lemma foldl_insert_mapRange n (m : gmap string ptr) :
  foldl (λ m kp, <[kp.1 := kp.2]> m) ∅ (mapRange W n m) = m.
Proof.
  pose proof (mapRange_perm W n m) as Hperm.
  assert (Hnd : NoDup (mapRange W n m).*1).
  { rewrite Hperm. apply NoDup_fst_map_to_list. }
  apply map_eq. intros k. rewrite foldl_insert_lookup by done.
  rewrite (list_to_map_proper _ _ Hnd Hperm), list_to_map_to_list, lookup_empty.
  by destruct (m !! k).
Qed.

Lemma tableRows_perm (seriesMap : gmap string ptr) h :
  tableRows W seriesMap h ≡ₚ (λ kp, h !!! kp.2) <$> map_to_list seriesMap.
Proof.
  unfold tableRows, sortedStats.
  rewrite sortFunc_perm, mapRange_perm, <- list_fmap_compose. done.
Qed.

End ListRecordings.

(** X4.  When the answer to the recordings request does not decode
    (transport failure, status other than 200, unreadable or malformed
    body), [listRecordings] prints one line "Error: ..." and returns
    normally: it performed that single exchange, printed no table and
    allocated nothing. *)
Theorem listRecordings_fetch_failure (W : World) (url : string) (s : State) :
  let ans := respond W (trace s) (recordingsRequest url) in
  (¬ ∃ recs, decodes (unmarshalRecordings W) ans recs) →
  ∃ err,
    listRecordings W url s =
      (Done tt, mkState (trace s ++ [(recordingsRequest url, ans)])
                        (stdout s ++ ["Error: " +:+ err]) (heap s)).
Proof.
  intros ans Hbad. unfold listRecordings.
  destruct (fetchRecordings_state W url s) as [r Hr]. rewrite bind_eq, Hr.
  destruct r as [err|recs].
  - exists err. reflexivity.
  - exfalso. apply Hbad. exists recs. by eapply fetchRecordings_inr.
Qed.

Lemma listRecordings_fetch_failure_witness :
  listRecordings downWorld "http://10.0.0.5:80" initState =
    (Done tt,
     mkState [(recordingsRequest "http://10.0.0.5:80", inl "no route to host")]
       ["Error: failed to connect to HDHomeRun DVR engine: no route to host"] []).
Proof.
  destruct (listRecordings_fetch_failure downWorld "http://10.0.0.5:80" initState)
    as [err Hrun].
  { by intros (recs & resp & body & [=] & _). }
  etrans; [exact Hrun|].
  assert (Hrun0 : listRecordings downWorld "http://10.0.0.5:80" initState =
    (Done tt,
     mkState [(recordingsRequest "http://10.0.0.5:80", inl "no route to host")]
       ["Error: failed to connect to HDHomeRun DVR engine: no route to host"] []))
    by (vm_compute; reflexivity).
  by rewrite <- Hrun, Hrun0.
Defined.

(** X5.  When the device reports no recording at all, [listRecordings]
    still prints a table: the header, the separator, no row, an empty line
    and "Total Series Found: 0"; it performs no exchange beyond the fetch
    and allocates nothing. *)
Theorem listRecordings_no_recordings (W : World) (url : string) (s : State) :
  let ans := respond W (trace s) (recordingsRequest url) in
  decodes (unmarshalRecordings W) ans [] →
  listRecordings W url s =
    (Done tt,
     mkState (trace s ++ [(recordingsRequest url, ans)])
       (stdout s ++ [headerLine; separatorLine; ""; "Total Series Found: 0"])
       (heap s)).
Proof.
  intros ans Hok. unfold listRecordings.
  rewrite bind_eq, (fetchRecordings_ok W url s [] Hok). fold ans.
  assert (Hrange : ∀ n, mapRange W n ∅ = []).
  { intros n. apply Permutation_nil_r.
    by rewrite mapRange_perm, map_to_list_empty. }
  unfold collectRecordings. simpl. mprims. rewrite Hrange. simpl. mprims.
  rewrite printSeriesMap_spec. unfold addEvent, tableLines, tableRows, sortedStats.
  cbn [trace stdout heap]. rewrite Hrange. simpl.
  assert (sortFunc W (cmpTotalSize (heap s)) [] = []) as ->.
  { apply Permutation_nil_r. apply sortFunc_perm. }
  reflexivity.
Qed.

Lemma listRecordings_no_recordings_witness :
  stdout (listRecordings emptyWorld "http://10.0.0.5:80" initState).2 =
    [headerLine; separatorLine; ""; "Total Series Found: 0"].
Proof.
  rewrite (listRecordings_no_recordings emptyWorld "http://10.0.0.5:80" initState).
  - reflexivity.
  - eexists _, _. split_and!; vm_compute; reflexivity.
Defined.

(** X6.  Once the recordings are fetched, the table [listRecordings] prints
    has exactly one row per distinct series identity of the input, whatever
    happened during aggregation.  The rows are the objects that the map
    built by [collectRecordings] from the fetched recordings points to, as
    they stand in the heap when [listRecordings] returns, in the order of
    the sorted slice: the lines printed are the header, the separator, the
    text of each of these objects, an empty line and the number of distinct
    identities; and these objects carry, in some order, the title of the
    first recording and the URL list of each series. *)
Theorem listRecordings_rows (W : World) (url : string) (s : State)
    (recs : list Recording) :
  let ans := respond W (trace s) (recordingsRequest url) in
  decodes (unmarshalRecordings W) ans recs →
  ∃ seriesMap s1 s',
    collectRecordings recs (addEvent (recordingsRequest url, ans) s) =
      (Done seriesMap, s1) ∧
    listRecordings W url s = (Done tt, s') ∧
    stdout s' =
      stdout s ++ [headerLine; separatorLine] ++
      (rowText <$> tableRows W seriesMap (heap s')) ++
      [""; "Total Series Found: " +:+ pretty (length (seriesIDs recs))] ∧
    length (tableRows W seriesMap (heap s')) = length (seriesIDs recs) ∧
    (λ row, (stTitle row, EpisodesURLs row)) <$> tableRows W seriesMap (heap s')
      ≡ₚ seriesEntry recs <$> seriesIDs recs.
Proof.
  intros ans Hok. unfold listRecordings.
  rewrite bind_eq, (fetchRecordings_ok W url s recs Hok). fold ans.
  set (s1 := addEvent (recordingsRequest url, ans) s).
  destruct (collectRecordings_lookup recs s1) as (m & h1 & Hrun1 & Hwf & Hlook).
  rewrite bind_eq, Hrun1, bind_eq.
  match goal with |- context [aggregateLoop W ∅ ?es ?s2] =>
    destruct (aggregateLoop_frame W ∅ es s2) as (evs & h' & Hrun & Hsame) end.
  cbn [trace stdout heap] in Hrun, Hsame.
  rewrite Hrun, foldl_insert_mapRange, printSeriesMap_spec.
  cbn [trace stdout heap].
  pose proof (collectRecordings_keys recs m h1 Hlook) as Hkeys.
  assert (Hsize : size m = length (seriesIDs recs)).
  { by rewrite <- length_map_to_list, <- (length_fmap fst), Hkeys. }
  assert (Hrows : (λ row, (stTitle row, EpisodesURLs row)) <$> tableRows W m h'
                  ≡ₚ seriesEntry recs <$> seriesIDs recs).
  { rewrite tableRows_perm, <- Hkeys, <- !list_fmap_compose.
    match goal with |- ?a ≡ₚ ?b => assert (a = b) as ->; [|done] end.
    apply Forall_fmap_ext, Forall_forall.
    intros [k p] Hin%elem_of_map_to_list. simpl.
    specialize (Hlook k). rewrite Hin in Hlook. simpl in Hlook.
    destruct Hsame as [_ Hsame]. destruct (Hsame p) as [-> ->].
    unfold seriesEntry.
    destruct (ofSeries k recs) as [|first others]; [discriminate|].
    injection Hlook as ->.
    change (addRecordings others (addRecording first (newSeriesStat (Title first))))
      with (addRecordings (first :: others) (newSeriesStat (Title first))).
    by rewrite addRecordings_title, addRecordings_urls. }
  eexists m, _, _. split; [reflexivity|]. split; [reflexivity|].
  cbn [stdout heap]. unfold tableLines, s1, addEvent. cbn [stdout]. rewrite Hsize.
  split; [done|]. split; [|done].
  apply Permutation_length in Hrows. by rewrite !length_fmap in Hrows.
Qed.

Lemma listRecordings_rows_witness :
  ∃ seriesMap s',
    (collectRecordings [recA1; recB; recA2]
       (addEvent (recordingsRequest "http://10.0.0.5:80",
                  respond brokenWorld [] (recordingsRequest "http://10.0.0.5:80"))
          initState)).1 = Done seriesMap ∧
    listRecordings brokenWorld "http://10.0.0.5:80" initState = (Done tt, s') ∧
    length (tableRows brokenWorld seriesMap (heap s')) = 2%nat ∧
    (λ row, (stTitle row, EpisodesURLs row)) <$>
      tableRows brokenWorld seriesMap (heap s') ≡ₚ
      [ ("Show B", ["http://10.0.0.5/episodes?B1"]);
        ("Show A", ["http://10.0.0.5/episodes?A1"; "http://10.0.0.5/episodes?A2"]) ].
Proof.
  destruct (listRecordings_rows brokenWorld "http://10.0.0.5:80" initState
              [recA1; recB; recA2])
    as (seriesMap & s1 & s' & Hmap & Hrun & _ & Hlen & Hrows).
  { eexists _, _. split_and!; vm_compute; reflexivity. }
  exists seriesMap, s'. split; [|split; [exact Hrun|]].
  { change (trace initState) with (@nil Event) in Hmap. by rewrite Hmap. }
  assert (Hids : seriesIDs [recA1; recB; recA2] = ["B"; "A"])
    by (vm_compute; reflexivity).
  rewrite Hids in Hlen, Hrows. split; [exact Hlen|].
  etrans; [exact Hrows|]. vm_compute. reflexivity.
Defined.

(** ** Failures of discovery and of the fetch, for both commands *)

Section Commands.
Variable W : World.

Lemma getStorageUrl_ok s d :
  decodes (unmarshalDiscovery W)
          (respond W (trace s) discoverRequest) d →
  getStorageUrl W s =
    (Done (inr (StorageURL d)),
     addEvent (discoverRequest, respond W (trace s) discoverRequest)
              (addLine banner s)).
Proof.
  intros (resp & body & Hans & Hst & Hb & Hd).
  unfold getStorageUrl, addEvent, addLine, banner, discoverRequest, timeout5s,
    http_StatusOK in *. mprims.
  rewrite Hans. cbn. rewrite Hst. cbn. rewrite Hb, Hd. reflexivity.
Qed.

Lemma getStorageUrl_inr s url s1 :
  getStorageUrl W s = (Done (inr url), s1) →
  ∃ d, decodes (unmarshalDiscovery W) (respond W (trace s) discoverRequest) d.
Proof.
  unfold getStorageUrl, decodes, discoverRequest, timeout5s, http_StatusOK. mprims.
  destruct (respond W (trace s) _) as [e|resp]; cbn; [discriminate|].
  destruct (Z.eqb_spec (StatusCode resp) 200) as [Hst|Hst]; cbn; [|discriminate].
  destruct (Body resp) as [e|body] eqn:Hb; cbn; [discriminate|].
  destruct (unmarshalDiscovery W body) as [e|d] eqn:Hd; cbn; [discriminate|].
  intros _. by exists d, resp, body.
Qed.

Lemma getStorageUrlOrExit_failure s :
  (¬ ∃ d, decodes (unmarshalDiscovery W) (respond W (trace s) discoverRequest) d) →
  ∃ err,
    getStorageUrlOrExit W s =
      (Exited 1,
       mkState (trace s ++ [(discoverRequest, respond W (trace s) discoverRequest)])
               (stdout s ++ [banner; "Discovery Error: " +:+ err]) (heap s)).
Proof.
  intros Hbad. destruct (getStorageUrl_state W s) as [r Hr].
  unfold getStorageUrlOrExit. rewrite bind_eq, Hr.
  destruct r as [err|url].
  - exists err. mprims. unfold addEvent, addLine, exchange. cbn [trace stdout heap].
    by rewrite <- app_assoc.
  - exfalso. apply Hbad. by eapply getStorageUrl_inr.
Qed.

Lemma getStorageUrlOrExit_ok s d :
  decodes (unmarshalDiscovery W) (respond W (trace s) discoverRequest) d →
  getStorageUrlOrExit W s =
    (Done (StorageURL d),
     mkState (trace s ++ [(discoverRequest, respond W (trace s) discoverRequest)])
             (stdout s ++ [banner]) (heap s)).
Proof.
  intros Hok. unfold getStorageUrlOrExit.
  rewrite bind_eq, (getStorageUrl_ok s d Hok). reflexivity.
Qed.

End Commands.

(** X12.  A discovery that does not succeed is fatal to both commands
    alike: [list] and [delete-series] print the banner and one line
    "Discovery Error: ...", then end the process with status 1, having
    performed only the discovery request and allocated nothing. *)
Theorem discovery_failure_is_fatal (W : World) (title : string) (forever : bool)
    (s : State) :
  let ans := respond W (trace s) discoverRequest in
  (¬ ∃ d, decodes (unmarshalDiscovery W) ans d) →
  ∃ err,
    let s' := mkState (trace s ++ [(discoverRequest, ans)])
                (stdout s ++ [banner; "Discovery Error: " +:+ err]) (heap s) in
    listCommand W s = (Exited 1, s') ∧
    deleteSeries W title forever s = (Exited 1, s').
Proof.
  intros ans Hbad.
  destruct (getStorageUrlOrExit_failure W s Hbad) as [err Hrun].
  exists err. cbv zeta. unfold listCommand, deleteSeries.
  by rewrite !bind_eq, Hrun.
Qed.

Lemma discovery_failure_is_fatal_witness :
  listCommand downWorld initState =
    (Exited 1,
     mkState [(discoverRequest, inl "no route to host")]
       [banner; "Discovery Error: failed to query discovery API: no route to host"]
       []).
Proof.
  destruct (discovery_failure_is_fatal downWorld "Show" false initState)
    as (err & Hlist & _).
  { by intros (d & resp & body & [=] & _). }
  assert (Hrun0 : listCommand downWorld initState =
    (Exited 1,
     mkState [(discoverRequest, inl "no route to host")]
       [banner; "Discovery Error: failed to query discovery API: no route to host"]
       [])) by (vm_compute; reflexivity).
  rewrite Hrun0 in Hlist. injection Hlist as Herr.
  by rewrite Hrun0, Herr.
Defined.

(** X13.  A fetch of the recordings that does not succeed is not fatal:
    after a successful discovery both commands print one line "Error: ..."
    and return normally, having performed the discovery and the fetch only;
    no table is printed and nothing is allocated. *)
Theorem fetch_failure_is_reported (W : World) (title : string) (forever : bool)
    (s : State) (d : DiscoveryResult) :
  let ans0 := respond W (trace s) discoverRequest in
  let ev0 := (discoverRequest, ans0) in
  let request := recordingsRequest (StorageURL d) in
  let ans1 := respond W (trace s ++ [ev0]) request in
  decodes (unmarshalDiscovery W) ans0 d →
  (¬ ∃ recs, decodes (unmarshalRecordings W) ans1 recs) →
  ∃ err,
    let s' := mkState (trace s ++ [ev0; (request, ans1)])
                (stdout s ++ [banner; "Error: " +:+ err]) (heap s) in
    listCommand W s = (Done tt, s') ∧
    deleteSeries W title forever s = (Done tt, s').
Proof.
  intros ans0 ev0 request ans1 Hok Hbad.
  pose proof (getStorageUrlOrExit_ok W s d Hok) as Hdisc. fold ans0 ev0 in Hdisc.
  match type of Hdisc with _ = (_, ?s0) => set (sd := s0) in * end.
  destruct (fetchRecordings_state W (StorageURL d) sd) as [r Hr].
  assert (∃ err, r = inl err) as [err ->].
  { destruct r as [err|recs]; [eauto|]. exfalso. apply Hbad.
    exists recs. by apply (fetchRecordings_inr W _ sd _ _ Hr). }
  exists err. cbv zeta. unfold listCommand, listRecordings, deleteSeries.
  rewrite !bind_eq, Hdisc, !bind_eq, Hr.
  mprims. unfold addEvent, exchange. subst sd. cbn [trace stdout heap].
  fold request ans1.
  rewrite <- !app_assoc. done.
Qed.

Lemma fetch_failure_is_reported_witness :
  ∃ s',
    deleteSeries (tableWorld
                    [(GET, "http://hdhomerun.local/discover.json", okBody "<discover>")]
                    scenarioDiscovery [] [])
                 "Show" true initState = (Done tt, s') ∧
    stdout s' =
      [banner; "Error: failed to connect to HDHomeRun DVR engine: no route to host"].
Proof.
  destruct (fetch_failure_is_reported
              (tableWorld
                 [(GET, "http://hdhomerun.local/discover.json", okBody "<discover>")]
                 scenarioDiscovery [] [])
              "Show" true initState (mkDiscoveryResult "10ABCDEF" "http://10.0.0.5:80"))
    as (err & _ & Hdel).
  { eexists _, _. split_and!; vm_compute; reflexivity. }
  { by intros (recs & resp & body & [=] & _). }
  assert (Hrun0 : ∃ s1, deleteSeries (tableWorld
                    [(GET, "http://hdhomerun.local/discover.json", okBody "<discover>")]
                    scenarioDiscovery [] [])
                 "Show" true initState = (Done tt, s1) ∧
          stdout s1 = [banner; "Error: failed to connect to HDHomeRun DVR engine: no route to host"]).
  { eexists. split; vm_compute; reflexivity. }
  destruct Hrun0 as (s1 & Hrun0 & Hout).
  exists s1. split; [exact Hrun0|exact Hout].
Defined.

(** ** Command-line dispatch *)

Section MainProperties.
Variable W : World.
Variable parseListFlags : list string → option Z.
Variable parseDeleteSeriesFlags : list string → Z + (string * bool).

Lemma printUsage_run s :
  printUsage s = (Done tt, mkState (trace s) (stdout s ++ usageLines) (heap s)).
Proof.
  unfold printUsage, usageLines. mprims. rewrite <- !app_assoc. reflexivity.
Qed.

(** X14.  Started without a command, or with a command other than [list]
    and [delete-series], [main] prints the usage (after the line "Unknown
    command." in the second case) and ends the process with status 1; it
    performs no exchange and allocates nothing. *)
Theorem main_usage (args : list string) (s : State) :
  (∀ command, args !! 1%nat = Some command →
              command ≠ "list" ∧ command ≠ "delete-series") →
  main W parseListFlags parseDeleteSeriesFlags args s =
    (Exited 1,
     mkState (trace s)
       (stdout s ++
        (if decide (length args < 2)%nat then [] else ["Unknown command."]) ++
        usageLines)
       (heap s)).
Proof.
  intros Hcmd. unfold main. rewrite bind_eq.
  destruct (decide (length args < 2)%nat) as [Hshort|Hlong];
  destruct (Z.ltb_spec (Z.of_nat (length args)) 2) as [Hlt|Hge]; try lia.
  - rewrite bind_eq, printUsage_run. reflexivity.
  - destruct (lookup_lt_is_Some_2 args 1%nat ltac:(lia)) as [command Hl].
    destruct (Hcmd command Hl) as [Hne1 Hne2].
    rewrite (list_lookup_total_correct _ _ _ Hl).
    mprims. rewrite !decide_False by done.
    pose proof (printUsage_run (mkState (trace s) (stdout s ++ ["Unknown command."])
                                        (heap s))) as Hu.
    cbn [trace stdout heap] in *. rewrite Hu.
    by rewrite <- app_assoc.
Qed.


(** X15.  With the command [delete-series], unless the flags parse and give
    a non-empty title, [main] ends the process without having performed any
    exchange, written anything to standard output or allocated anything:
    with the status the flag parser chose, or with status 1 for an empty
    title. *)
Theorem main_delete_series_needs_title (args : list string) (s : State) :
  args !! 1%nat = Some "delete-series" →
  (∀ title forever,
     parseDeleteSeriesFlags (drop 2 args) = inr (title, forever) → title = "") →
  main W parseListFlags parseDeleteSeriesFlags args s =
    (Exited match parseDeleteSeriesFlags (drop 2 args) with
            | inl code => code
            | inr _ => 1
            end, s).
Proof.
  intros Hl Hflags. unfold main. rewrite bind_eq.
  pose proof (lookup_lt_Some _ _ _ Hl) as Hlen.
  destruct (Z.ltb_spec (Z.of_nat (length args)) 2) as [Hlt|Hge]; [lia|].
  rewrite (list_lookup_total_correct _ _ _ Hl). mprims.
  rewrite decide_False by done. rewrite decide_True by done.
  destruct (parseDeleteSeriesFlags (drop 2 args)) as [code|[title forever]].
  - reflexivity.
  - rewrite (Hflags title forever eq_refl). reflexivity.
Qed.


End MainProperties.

Lemma main_usage_witness :
  main scenarioWorld (λ _, None) (λ _, inl 2) ["hdhr-cli"] initState =
    (Exited 1, mkState [] usageLines []) ∧
  main scenarioWorld (λ _, None) (λ _, inl 2) ["hdhr-cli"; "delete-episode"] initState =
    (Exited 1, mkState [] ("Unknown command." :: usageLines) []).
Proof.
  split.
  - rewrite main_usage; [reflexivity|]. intros command [=].
  - rewrite main_usage; [reflexivity|]. by intros command [= <-].
Defined.

Lemma main_delete_series_needs_title_witness :
  main scenarioWorld (λ _, None) (λ _, inr ("", false))
       ["hdhr-cli"; "delete-series"] initState = (Exited 1, initState).
Proof.
  rewrite main_delete_series_needs_title; [reflexivity|reflexivity|].
  by intros title forever [= <- _].
Defined.

(** ** The comparison of the sort *)

(** X11.  The comparison [printSeriesMap] hands to [slices.SortFunc] is a
    three-way comparison of the two [TotalSize], ascending: negative, zero or
    positive as the first is smaller than, equal to or larger than the
    second; swapping the arguments negates it; and it is a strict weak
    ordering, as the sort requires. *)
Theorem cmpTotalSize_contract (h : list SeriesStat) (a b : ptr) :
  (cmpTotalSize h a b < 0 ↔ TotalSize (h !!! a) < TotalSize (h !!! b)) ∧
  (cmpTotalSize h a b = 0 ↔ TotalSize (h !!! a) = TotalSize (h !!! b)) ∧
  (cmpTotalSize h a b > 0 ↔ TotalSize (h !!! a) > TotalSize (h !!! b)) ∧
  cmpTotalSize h b a = - cmpTotalSize h a b ∧
  StrictWeakOrder (less (cmpTotalSize h)).
Proof.
  split_and!; [| | | |apply cmpTotalSize_swo]; unfold cmpTotalSize;
    destruct (Z.ltb_spec (TotalSize (h !!! b)) (TotalSize (h !!! a)));
    destruct (Z.ltb_spec (TotalSize (h !!! a)) (TotalSize (h !!! b))); lia.
Qed.

(** ** Aggregation overwrites the provisional counters *)

(** X16.  The counters a series holds when [aggregateStats] is called have
    no influence on what it does: whatever [Count] and [TotalSize] were (the
    provisional count of grouping, or the totals of an earlier aggregation),
    the outcome, the exchanges and the final heap are the same.  Aggregating
    again replaces the totals, it does not add to them. *)
Theorem aggregateStats_overwrites (W : World) (stat : ptr) (s : State)
    (count total : Z) :
  aggregateStats W stat
    (mkState (trace s) (stdout s)
       (alter (λ st, setTotalSize total (setCount count st)) stat (heap s))) =
  aggregateStats W stat s.
Proof.
  unfold aggregateStats. mprims.
  match goal with
  | |- urlsLoop _ _ _ (mkState _ _ ?h1) = urlsLoop _ _ _ (mkState _ _ ?h2) =>
    assert (Hheap : h1 = h2)
  end.
  { rewrite !list_alter_alter_eq. apply list_alter_ext; [|done]. by intros [] _. }
  rewrite Hheap. reflexivity.
Qed.
